(** * premailer: inlining stylesheet rules into [style] attributes

    A shallow embedding of [premailer/premailer.py] (Python 2) and the
    properties of its style pipeline: the shorthand expander
    [_split_spacing_properties], the merge engine [_merge_styles], the rule
    extractor [Premailer._parse_style_rules], the attribute mapper
    [Premailer._style_to_basic_html_attributes] and the rule-application
    loops of [Premailer.transform].

    Python values are modelled as follows.
    - [str] is [string]; the methods used by the program ([split], [strip],
      [count], [join], ...) are the functions of module [Str].
    - A raised exception is the [Err] case of [result]; the exception class
      is an [exn].
    - A [dict] is a [gmap]; the order in which Python 2 iterates over a dict
      is not specified by the language, so it is a parameter ([DictOrder]).
    - The compiled regular expressions are modelled by the matchers of
      module [Regex], one function per pattern. *)

From Stdlib Require Import Ascii String.
From stdpp Require Import gmap strings list fin_maps sorting.

(** ** Exceptions *)

Inductive exn : Type :=
  | ValueError          (* tuple unpacking of a list of the wrong length *)
  | UnboundLocalError   (* a local variable read before any assignment *)
  | IndexError          (* indexing an empty string *)
  | NameError.

Inductive result (A : Type) : Type :=
  | Ok (a : A)
  | Err (e : exn).
Arguments Ok {A} a.
Arguments Err {A} e.

(** Sequencing: the first exception raised aborts the computation. *)
Global Instance result_ret : MRet result := λ A a, Ok a.
Global Instance result_bind : MBind result := λ A B f m,
  match m with
  | Ok a => f a
  | Err e => Err e
  end.

Global Instance result_fmap : FMap result := λ A B f m,
  match m with
  | Ok a => Ok (f a)
  | Err e => Err e
  end.

Definition is_ok {A : Type} (m : result A) : bool :=
  match m with Ok _ => true | Err _ => false end.

(** ** Python 2 [str] methods *)

Module Str.

(** [string.whitespace] of Python 2: space, \t, \n, \v, \f, \r. *)
Definition is_space (c : ascii) : bool :=
  let n := nat_of_ascii c in
  (n =? 32) || ((9 <=? n) && (n <=? 13)).

(** [s.count(c)] for a one-character [c]. *)
Fixpoint count (c : ascii) (s : string) : nat :=
  match s with
  | EmptyString => 0
  | String a s' => (if Ascii.eqb a c then 1 else 0) + count c s'
  end.

(** [c in s] for a one-character [c]. *)
Fixpoint mem (c : ascii) (s : string) : bool :=
  match s with
  | EmptyString => false
  | String a s' => Ascii.eqb a c || mem c s'
  end.

(** [s.split(sep)] for a one-character [sep]: never the empty list. *)
Fixpoint split (sep : ascii) (s : string) : list string :=
  match s with
  | EmptyString => [EmptyString]
  | String a s' =>
      if Ascii.eqb a sep then EmptyString :: split sep s'
      else match split sep s' with
           | w :: ws => String a w :: ws
           | [] => [String a EmptyString]
           end
  end.

(** [s.split(sep, 1)]: cut at the first [sep] only. *)
Fixpoint split1 (sep : ascii) (s : string) : list string :=
  match s with
  | EmptyString => [EmptyString]
  | String a s' =>
      if Ascii.eqb a sep then [EmptyString; s']
      else match split1 sep s' with
           | w :: ws => String a w :: ws
           | [] => [String a EmptyString]
           end
  end.

(** [s.split()]: the maximal runs of non-whitespace characters. *)
Fixpoint words (s : string) : list string :=
  match s with
  | EmptyString => []
  | String a s' =>
      if is_space a then words s'
      else match s' with
           | EmptyString => [String a EmptyString]
           | String b _ =>
               if is_space b then String a EmptyString :: words s'
               else match words s' with
                    | w :: ws => String a w :: ws
                    | [] => [String a EmptyString]
                    end
           end
  end.

Fixpoint lstrip (s : string) : string :=
  match s with
  | EmptyString => EmptyString
  | String a s' => if is_space a then lstrip s' else s
  end.

Fixpoint rstrip (s : string) : string :=
  match s with
  | EmptyString => EmptyString
  | String a s' =>
      match rstrip s' with
      | EmptyString => if is_space a then EmptyString else String a EmptyString
      | r => String a r
      end
  end.

(** [s.strip()] *)
Definition strip (s : string) : string := rstrip (lstrip s).

(** [sep.join(l)] *)
Definition join (sep : string) (l : list string) : string :=
  String.concat sep l.

(** [s[-1]], which raises [IndexError] on the empty string. *)
Fixpoint last (s : string) : result ascii :=
  match s with
  | EmptyString => Err IndexError
  | String a EmptyString => Ok a
  | String _ s' => last s'
  end.

(** [s[:-1]] *)
Fixpoint init (s : string) : string :=
  match s with
  | EmptyString => EmptyString
  | String _ EmptyString => EmptyString
  | String a s' => String a (init s')
  end.

(** [s[:-2]] *)
Definition init2 (s : string) : string := init (init s).

(** [s[1:]] *)
Definition tail (s : string) : string :=
  match s with
  | EmptyString => EmptyString
  | String _ s' => s'
  end.

(** [s.startswith(p)] *)
Definition startswith (p s : string) : bool := String.prefix p s.

(** [s.endswith(p)] *)
Definition endswith (p s : string) : bool :=
  String.prefix (String.rev p) (String.rev s).

(** [sub in s] *)
Fixpoint contains (sub s : string) : bool :=
  String.prefix sub s ||
  match s with
  | EmptyString => false
  | String _ s' => contains sub s'
  end.

(** The longest prefix of [s] whose characters satisfy [p], and the rest. *)
Fixpoint span (p : ascii → bool) (s : string) : string * string :=
  match s with
  | EmptyString => (EmptyString, EmptyString)
  | String a s' =>
      if p a then let '(r, t) := span p s' in (String a r, t)
      else (EmptyString, s)
  end.

End Str.

(** ** Shorthand expander: [_split_spacing_properties] *)

(** A rule of the stylesheet: [(selector, style)]. *)
Definition rule : Type := string * string.

(** The locals [top], [right], [bottom] and [left] of
    [_split_spacing_properties].  Every branch of the [if length == ...]
    chain assigns all four, so they are bound together or not at all; they
    are function locals, so a binding made for one declaration is still
    there for the next declaration and for the next rule. *)
Record sides : Type := Sides {
  top : string;
  right : string;
  bottom : string;
  left : string
}.

(** [p in ('margin', 'padding')] *)
Definition is_spacing (p : string) : bool :=
  bool_decide (p = "margin") || bool_decide (p = "padding").

(** The [if length == 1: ... elif length == 4: ...] chain, which has no
    [else]: with no value or more than four the locals are left as they
    were. *)
Definition assign_sides (values : list string) (cur : option sides) : option sides :=
  match values with
  | [a] => Some (Sides a a a a)
  | [a; b] => Some {| top := a; bottom := a; left := b; right := b |}
  | [a; b; c] => Some {| top := a; right := b; left := b; bottom := c |}
  | [a; b; c; d] => Some {| top := a; right := b; bottom := c; left := d |}
  | _ => cur
  end.

(** The four lines appended to [new_properties]. *)
Definition new_properties (p : string) (s : sides) : string :=
  (p +:+ "-top:" +:+ top s +:+ ";") +:+
  (p +:+ "-right:" +:+ right s +:+ ";") +:+
  (p +:+ "-bottom:" +:+ bottom s +:+ ";") +:+
  (p +:+ "-left:" +:+ left s +:+ ";").

(** One iteration of [for property_ in style.split(';')]: the state is the
    pair of the spacing locals and the accumulated [properties]. *)
Definition expand_property (st : option sides * string) (property_ : string)
    : result (option sides * string) :=
  let '(locals, properties) := st in
  match Str.split ":" property_ with
  | [p; v] =>
      if is_spacing p then
        let locals' := assign_sides (Str.words v) locals in
        match locals' with
        | Some s => Ok (locals', properties +:+ new_properties p s)
        | None => Err UnboundLocalError
        end
      else Ok (locals, properties +:+ property_ +:+ ";")
  | _ => Err ValueError
  end.

Fixpoint expand_properties (st : option sides * string) (l : list string)
    : result (option sides * string) :=
  match l with
  | [] => Ok st
  | property_ :: l' => st' ← expand_property st property_; expand_properties st' l'
  end.

(** The removal of the trailing [';']. *)
Definition drop_trailing_semicolon (properties : string) : result string :=
  c ← Str.last properties;
  mret (if Ascii.eqb c ";" then Str.init properties else properties).

(** One iteration of [for selector, style in rules]. *)
Definition expand_rule (locals : option sides) (r : rule)
    : result (option sides * rule) :=
  let '(selector, style) := r in
  '(locals', properties) ← expand_properties (locals, "") (Str.split ";" style);
  properties' ← drop_trailing_semicolon properties;
  mret (locals', (selector, properties')).

Fixpoint expand_rules (locals : option sides) (rules : list rule)
    : result (list rule) :=
  match rules with
  | [] => Ok []
  | r :: rules' =>
      '(locals', r') ← expand_rule locals r;
      orules ← expand_rules locals' rules';
      mret (r' :: orules)
  end.

Definition _split_spacing_properties (rules : list rule) : result (list rule) :=
  expand_rules None rules.

(** *** The expansion as the specification words it *)

(** One, two, three or four values, as the CSS shorthand rules read them. *)
Definition shorthand_sides (values : list string) : option sides :=
  match values with
  | [a] => Some {| top := a; right := a; bottom := a; left := a |}
  | [a; b] => Some {| top := a; right := b; bottom := a; left := b |}
  | [a; b; c] => Some {| top := a; right := b; bottom := c; left := b |}
  | [a; b; c; d] => Some {| top := a; right := b; bottom := c; left := d |}
  | _ => None
  end.

(** The four longhand declarations, in the order [-top], [-right],
    [-bottom], [-left]. *)
Definition longhands (p : string) (s : sides) : list string :=
  [p +:+ "-top:" +:+ top s; p +:+ "-right:" +:+ right s;
   p +:+ "-bottom:" +:+ bottom s; p +:+ "-left:" +:+ left s].

(** The declarations that stand for declaration [d] after expansion. *)
Definition expand_declaration (d : string) : list string :=
  match Str.split ":" d with
  | [p; v] =>
      if is_spacing p then
        match shorthand_sides (Str.words v) with
        | Some s => longhands p s
        | None => [d]
        end
      else [d]
  | _ => [d]
  end.

Definition expand_block (style : string) : string :=
  Str.join ";" (flat_map expand_declaration (Str.split ";" style)).

(** A declaration has one [':'], and a [margin] or [padding] declaration
    has one to four values. *)
Definition one_colon (d : string) : Prop := Str.count ":" d = 1.

Definition declarations (r : rule) : list string := Str.split ";" r.2.

Definition spacing_arity_ok (d : string) : Prop :=
  match Str.split ":" d with
  | [p; v] => is_spacing p = true → 1 ≤ length (Str.words v) ≤ 4
  | _ => True
  end.

Definition well_formed (r : rule) : Prop :=
  Forall one_colon (declarations r) ∧ Forall spacing_arity_ok (declarations r).

(** [pieces] stand for declaration [d] as the specification has it: a
    declaration that is not a shorthand stays as it is, and a [margin] or
    [padding] declaration with one to four values becomes its four
    longhands. *)
Definition expands_to (d : string) (pieces : list string) : Prop :=
  ∀ p v, Str.split ":" d = [p; v] →
    (is_spacing p = false → pieces = [d]) ∧
    (∀ s, is_spacing p = true → shorthand_sides (Str.words v) = Some s →
          pieces = longhands p s).

(** Rule [o] is rule [r] expanded. *)
Definition rule_expands_to (r o : rule) : Prop :=
  o.1 = r.1 ∧
  ∃ pieces, Forall2 expands_to (declarations r) pieces ∧
            o.2 = Str.join ";" (concat pieces).

(** Every piece followed by [';'], as [properties] is accumulated. *)
Fixpoint terminated (l : list string) : string :=
  match l with
  | [] => ""
  | x :: l' => x +:+ ";" +:+ terminated l'
  end.

(** No declaration of the block names [margin] or [padding]. *)
Definition no_shorthand (r : rule) : Prop :=
  Forall (λ d, is_spacing (hd "" (Str.split ":" d)) = false) (declarations r).

(** ** The compiled regular expressions *)

Module Regex.

(** [re.findall]: the matches are searched from left to right and do not
    overlap.  [m s] is the match of the pattern at the start of [s], as its
    groups and the number of characters it consumes (never zero for the
    patterns below); while [skip] is positive the scan is still inside the
    previous match. *)
Fixpoint findall_from {G : Type} (m : string → option (G * nat))
    (skip : nat) (s : string) : list G :=
  match s with
  | EmptyString => []
  | String _ s' =>
      match skip with
      | S k => findall_from m k s'
      | 0 =>
          match m s with
          | Some (g, n) => g :: findall_from m (n - 1) s'
          | None => findall_from m 0 s'
          end
      end
  end.

Definition findall {G : Type} (m : string → option (G * nat)) (s : string)
    : list G :=
  findall_from m 0 s.

(** [pattern.sub(repl, s)] for a constant [repl]: [m s] is the length of
    the match at the start of [s]. *)
Fixpoint sub_from (m : string → option nat) (repl : string)
    (skip : nat) (s : string) : string :=
  match s with
  | EmptyString => EmptyString
  | String a s' =>
      match skip with
      | S k => sub_from m repl k s'
      | 0 =>
          match m s with
          | Some n => repl +:+ sub_from m repl (n - 1) s'
          | None => String a (sub_from m repl 0 s')
          end
      end
  end.

Definition sub (m : string → option nat) (repl : string) (s : string) : string :=
  sub_from m repl 0 s.

(** [\w] for a byte string without the LOCALE and UNICODE flags:
    [[a-zA-Z0-9_]]. *)
Definition is_word (c : ascii) : bool :=
  let n := nat_of_ascii c in
  ((48 <=? n) && (n <=? 57)) || ((65 <=? n) && (n <=? 90)) ||
  ((97 <=? n) && (n <=? 122)) || (n =? 95).

(** The class [[:\-\w]]. *)
Definition is_key_char (c : ascii) : bool :=
  Ascii.eqb c ":" || Ascii.eqb c "-" || is_word c.

Definition not_char (x : ascii) (c : ascii) : bool := negb (Ascii.eqb c x).

(** [grouping_regex], the pattern [( [:\-\w]* ) { ( [^}]+ ) }] (written
    without the spaces), at the start of [s].  Both repetitions are greedy,
    and giving characters back never helps: the character after a shorter
    run of the first class is in the class, so is not ['{'], and the one
    after a shorter run of [[^}]] is not ['}'].  So the pattern matches
    exactly when the longest run of [[:\-\w]] is followed by ['{'], a
    non-empty longest run of [[^}]] and ['}'] ([rest''], when not empty,
    starts with the ['}'] that stopped the run). *)
Definition grouping_regex (s : string) : option ((string * string) * nat) :=
  let '(key, rest) := Str.span is_key_char s in
  match rest with
  | String b rest' =>
      if Ascii.eqb b "{" then
        let '(content, rest'') := Str.span (not_char "}") rest' in
        match content, rest'' with
        | String _ _, String _ _ =>
            Some ((key, content), String.length key + 1 + String.length content + 1)
        | _, _ => None
        end
      else None
  | EmptyString => None
  end.

(** [_regex = '((.*?){(.*?)})'] with DOTALL, at the start of [s]; the
    groups are (whole match, selectors, bulk).  Both repetitions are lazy:
    the selectors run to the first ['{'] and the bulk to the first ['}']
    after it; when no ['}'] follows the first ['{'], none follows a later
    one either.  [rest] and [rest''], when not empty, start with the
    character that stopped the run. *)
Definition _regex (s : string) : option ((string * string * string) * nat) :=
  let '(selectors, rest) := Str.span (not_char "{") s in
  match rest with
  | String _ rest' =>
      let '(bulk, rest'') := Str.span (not_char "}") rest' in
      match rest'' with
      | String _ _ =>
          Some ((selectors +:+ "{" +:+ bulk +:+ "}", selectors, bulk),
                String.length selectors + 1 + String.length bulk + 1)
      | EmptyString => None
      end
  | EmptyString => None
  end.

(** The position of the first ["*/"] in [s]. *)
Fixpoint find_comment_end (s : string) : option nat :=
  match s with
  | String a ((String b _) as s') =>
      if Ascii.eqb a "*" && Ascii.eqb b "/" then Some 0
      else S <$> find_comment_end s'
  | _ => None
  end.

(** [_css_comments = r'/\*.*?\*/'] with DOTALL. *)
Definition _css_comments (s : string) : option nat :=
  match s with
  | String a (String b s') =>
      if Ascii.eqb a "/" && Ascii.eqb b "*" then
        n ← find_comment_end s'; Some (2 + n + 2)
      else None
  | _ => None
  end.

(** [';(\s+)'] and [':(\s+)']: the character [c] and the longest run of
    whitespace after it, which is not empty. *)
Definition char_then_spaces (c : ascii) (s : string) : option nat :=
  match s with
  | String a s' =>
      if Ascii.eqb a c then
        match Str.span Str.is_space s' with
        | (String _ _ as run, _) => Some (1 + String.length run)
        | _ => None
        end
      else None
  | EmptyString => None
  end.

Definition _semicolon_regex : string → option nat := char_then_spaces ";".
Definition _colon_regex : string → option nat := char_then_spaces ":".

End Regex.

(** ** Dictionaries *)

(** The order in which a Python 2 [dict] is iterated ([items()],
    [values()]) is some enumeration of its entries, which the language does
    not specify; it is taken to depend on the entries alone.  The
    properties below are stated for every such order. *)
Class DictOrder : Type := {
  items : ∀ {V : Type}, gmap string V → list (string * V);
  items_perm : ∀ (V : Type) (m : gmap string V), items m ≡ₚ map_to_list m
}.

(** One such order, by which the definitions can be run. *)
Definition key_order : DictOrder :=
  {| items := λ V m, map_to_list m; items_perm := λ V m, reflexivity _ |}.

(** ** Style merge engine: [_merge_styles] *)

(** One element of [[x.strip().split(':', 1) for x in ...]], unpacked as
    [k, v] and stored as [d[k.strip()] = v.strip()]. *)
Definition parse_declaration (x : string) : result (string * string) :=
  match Str.split1 ":" (Str.strip x) with
  | [k; v] => Ok (Str.strip k, Str.strip v)
  | _ => Err ValueError
  end.

Fixpoint parse_into (d : gmap string string) (xs : list string)
    : result (gmap string string) :=
  match xs with
  | [] => Ok d
  | x :: xs' => '(k, v) ← parse_declaration x; parse_into (<[k := v]> d) xs'
  end.

(** The loop that fills [news] from [new] and [olds] from [old] or from the
    content of a group. *)
Definition parse_declarations (text : string) : result (gmap string string) :=
  parse_into ∅ (filter (λ x, Str.strip x ≠ "") (Str.split ";" text)).

Fixpoint parse_groups (groups : gmap string (gmap string string))
    (grouped_split : list (string * string))
    : result (gmap string (gmap string string)) :=
  match grouped_split with
  | [] => Ok groups
  | (old_class, old_content) :: rest =>
      olds ← parse_declarations old_content;
      parse_groups (<[old_class := olds]> groups) rest
  end.

(** [groups] as built from [old]. *)
Definition parse_old (old : string) : result (gmap string (gmap string string)) :=
  match Regex.findall Regex.grouping_regex old with
  | [] => olds ← parse_declarations old; mret {[ "" := olds ]}
  | grouped_split => parse_groups ∅ grouped_split
  end.

(** [for k, v in ...: if k not in merged: merged[k] = v] *)
Definition merge_into (merged : gmap string string) (kvs : list (string * string))
    : gmap string string :=
  foldl (λ m kv, match m !! kv.1 with
                 | Some _ => m
                 | None => <[kv.1 := kv.2]> m
                 end) merged kvs.

(** [sorted(l, cmp)] for the [cmp] that compares the numbers of [':'] in the
    keys: Python's sort is stable, and so is this insertion sort. *)
Fixpoint insert_by_colons {V : Type} (x : string * V) (l : list (string * V))
    : list (string * V) :=
  match l with
  | [] => [x]
  | y :: l' =>
      if Str.count ":" x.1 <=? Str.count ":" y.1 then x :: l
      else y :: insert_by_colons x l'
  end.

(** The order of that [cmp]. *)
Definition colons_le {V : Type} (x y : string * V) : Prop :=
  Str.count ":" x.1 ≤ Str.count ":" y.1.

Definition sorted_by_colons {V : Type} (l : list (string * V)) : list (string * V) :=
  foldr insert_by_colons [] l.

Section Merge.
Context `{DictOrder}.

(** ['; '.join(['%s:%s' % (k, v) for (k, v) in d.items()])] *)
Definition format_block (d : gmap string string) : string :=
  Str.join "; " (map (λ kv, kv.1 +:+ ":" +:+ kv.2) (items d)).

(** ['%s{%s}' % (class_, ...)] *)
Definition format_group (g : string * gmap string string) : string :=
  g.1 +:+ "{" +:+ format_block g.2 +:+ "}".

(** The step "Perform the merge". *)
Definition merge_groups (groups : gmap string (gmap string string))
    (news : gmap string string) (class_ : string)
    : gmap string (gmap string string) :=
  let merged := merge_into news (items (default ∅ (groups !! class_))) in
  <[class_ := merged]> groups.

(** The final [if len(groups) == 1: ... else: ...]. *)
Definition serialize (groups : gmap string (gmap string string)) : result string :=
  if size groups =? 1 then
    match items groups with
    | g :: _ => Ok (format_block g.2)
    | [] => Err IndexError
    end
  else
    let all := map format_group (sorted_by_colons (items groups)) in
    Ok (Str.join " " (filter (λ x, x ≠ "{}") all)).

Definition _merge_styles (old new class_ : string) : result string :=
  news ← parse_declarations new;
  groups ← parse_old old;
  serialize (merge_groups groups news class_).

End Merge.

(** ** Rule extractor: [Premailer._parse_style_rules] *)

Definition FILTER_PSEUDOSELECTORS : list string :=
  [":last-child"; ":first-child"; "nth-child"].

(** The options of [Premailer.__init__] that the modelled methods read. *)
Record Premailer : Type := {
  exclude_pseudoclasses : bool;
  include_star_selectors : bool
}.

(** [Premailer()] with the default options. *)
Definition default_premailer : Premailer :=
  {| exclude_pseudoclasses := false; include_star_selectors := false |}.

(** [':' + selector.split(':', 1)[1]], read only when [':' in selector]. *)
Definition pseudo_suffix (selector : string) : string :=
  ":" +:+ nth 1 (Str.split1 ":" selector) "".

(** The body of [for selector in ...]: the state is [(rules, leftover)]. *)
Definition classify_selector (self : Premailer) (bulk : string)
    (acc : list rule * list rule) (selector : string) : list rule * list rule :=
  let '(rules, leftover) := acc in
  if Str.mem ":" selector && exclude_pseudoclasses self &&
     bool_decide (pseudo_suffix selector ∉ FILTER_PSEUDOSELECTORS)
  then (rules, leftover ++ [(selector, bulk)])
  else if bool_decide (selector = "*") && negb (include_star_selectors self)
  then (rules, leftover)
  else (rules ++ [(selector, bulk)], leftover).

(** [[x.strip() for x in selectors.split(',') if x.strip() and not
    x.strip().startswith('@')]] *)
Definition selector_list (selectors : string) : list string :=
  map Str.strip
    (filter (λ x, Str.strip x ≠ "" ∧ Str.startswith "@" (Str.strip x) = false)
       (Str.split "," selectors)).

(** The normalisation of [bulk]. *)
Definition normalize_bulk (bulk : string) : string :=
  let bulk := Regex.sub Regex._semicolon_regex ";" (Str.strip bulk) in
  let bulk := Regex.sub Regex._colon_regex ":" (Str.strip bulk) in
  if Str.endswith ";" bulk then Str.init bulk else bulk.

(** The body of [for each in _regex.findall(...)]. *)
Definition parse_block (self : Premailer) (acc : list rule * list rule)
    (each : string * string * string) : list rule * list rule :=
  let '(_, selectors, bulk) := each in
  foldl (classify_selector self (normalize_bulk bulk)) acc (selector_list selectors).

(** Returns [(rules, leftover)]. *)
Definition _parse_style_rules (self : Premailer) (css_body : string)
    : list rule * list rule :=
  let css_body := Regex.sub Regex._css_comments "" css_body in
  foldl (parse_block self) ([], []) (Regex.findall Regex._regex (Str.strip css_body)).

(** ** Attribute mapper: [Premailer._style_to_basic_html_attributes] *)

(** The body of the loop that fills [attributes]. *)
Definition project_declaration (attributes : gmap string string) (x : string)
    : gmap string string :=
  match Str.split ":" x with
  | [key; value] =>
      let key := Str.strip key in
      if bool_decide (key = "text-align") then
        <["align" := Str.strip value]> attributes
      else if bool_decide (key = "background-color") then
        <["bgcolor" := Str.strip value]> attributes
      else if bool_decide (key = "width") || bool_decide (key = "height") then
        let value := Str.strip value in
        let value := if Str.endswith "px" value then Str.init2 value else value in
        <[key := value]> attributes
      else attributes
  | _ => attributes
  end.

(** The text that is split into declarations: with a ['}'] in
    [style_content] (the second test of the source compares the number of
    ['{'] with itself), what precedes the first ['}'], less its first
    character. *)
Definition unconditional_text (style_content : string) : string :=
  if (0 <? Str.count "}" style_content) &&
     (Str.count "{" style_content =? Str.count "{" style_content)
  then Str.tail (hd "" (Str.split "}" style_content))
  else style_content.

(** The dict [attributes]. *)
Definition basic_attributes (style_content : string) : gmap string string :=
  foldl project_declaration ∅ (Str.split ";" (unconditional_text style_content)).

Section Transform.
Context `{DictOrder}.

(** [element] is [element.attrib], which the method updates. *)
Definition _style_to_basic_html_attributes (element : gmap string string)
    (style_content : string) (force : bool) : gmap string string :=
  foldl (λ attrib kv,
           if bool_decide (is_Some (attrib !! kv.1)) && negb force then attrib
           else <[kv.1 := kv.2]> attrib)
        element (items (basic_attributes style_content)).

(** ** Orchestrator: the style loops of [Premailer.transform]

    The document is the map from its elements (numbered) to their
    attributes; the selector-query service [CSSSelector(selector)(page)]
    is a parameter. *)
Variable CSSSelector : string → gmap nat (gmap string string) → list nat.

(** [item.attrib] *)
Definition attrib (page : gmap nat (gmap string string)) (item : nat)
    : gmap string string :=
  default ∅ (page !! item).

(** [item.attrib.get('style', '')] *)
Definition get_style (page : gmap nat (gmap string string)) (item : nat) : string :=
  default "" (attrib page item !! "style").

(** [item.attrib['style'] = new_style] followed by the call of
    [_style_to_basic_html_attributes(item, new_style, force=True)]. *)
Definition set_style (page : gmap nat (gmap string string)) (item : nat)
    (new_style : string) : gmap nat (gmap string string) :=
  <[item := _style_to_basic_html_attributes
              (<["style" := new_style]> (attrib page item)) new_style true]> page.

(** The state of the loop over the rules. *)
Record state : Type := State {
  page_of : gmap nat (gmap string string);
  first_time : list nat;
  first_time_styles : list (nat * string)
}.

(** The selector that is queried and [class_], for one rule. *)
Definition split_selector (selector : string) : string * string :=
  let '(new_selector, class_) :=
    if Str.mem ":" selector then
      match Str.split1 ":" selector with
      | [new_selector; class_] => (new_selector, ":" +:+ class_)
      | _ => (selector, "")
      end
    else (selector, "") in
  if bool_decide (class_ ∈ FILTER_PSEUDOSELECTORS) then (selector, "")
  else (new_selector, class_).

(** The style computed for [item] by the body of [for item in sel(page)]. *)
Definition new_style_for (style class_ : string) (st : state) (item : nat)
    : result string :=
  let old_style := get_style (page_of st) item in
  if bool_decide (item ∉ first_time st) then
    if bool_decide (old_style ≠ "") then _merge_styles style old_style class_
    else _merge_styles old_style style class_
  else _merge_styles old_style style class_.

(** The body of [for item in sel(page)]. *)
Definition visit_item (style class_ : string) (st : state) (item : nat)
    : result state :=
  let old_style := get_style (page_of st) item in
  new_style ← new_style_for style class_ st item;
  let '(ft, fts) :=
    if bool_decide (item ∉ first_time st)
    then (first_time st ++ [item], first_time_styles st ++ [(item, old_style)])
    else (first_time st, first_time_styles st) in
  mret {| page_of := set_style (page_of st) item new_style;
          first_time := ft; first_time_styles := fts |}.

Fixpoint visit_items (style class_ : string) (st : state) (l : list nat)
    : result state :=
  match l with
  | [] => Ok st
  | item :: l' => st' ← visit_item style class_ st item; visit_items style class_ st' l'
  end.

(** The body of [for selector, style in rules]; it leaves [class_] bound. *)
Definition apply_rule (st : state) (r : rule) : result (state * string) :=
  let '(selector, style) := r in
  let '(selector, class_) := split_selector selector in
  st' ← visit_items style class_ st (CSSSelector selector (page_of st));
  mret (st', class_).

(** The loop over the rules; [class_] is [None] while unbound. *)
Fixpoint apply_rules (st : state) (class_ : option string) (rules : list rule)
    : result (state * option string) :=
  match rules with
  | [] => Ok (st, class_)
  | r :: rules' =>
      '(st', class_') ← apply_rule st r;
      apply_rules st' (Some class_') rules'
  end.

(** The body of the loop "Re-apply initial inline styles", which reads the
    [class_] left by the last rule. *)
Definition restore_item (class_ : option string)
    (page : gmap nat (gmap string string)) (entry : nat * string)
    : result (gmap nat (gmap string string)) :=
  let '(item, inline_style) := entry in
  let old_style := get_style page item in
  if bool_decide (inline_style = "") then Ok page
  else
    class_ ← match class_ with Some c => Ok c | None => Err NameError end;
    new_style ← _merge_styles old_style inline_style class_;
    mret (set_style page item new_style).

Fixpoint restore_items (class_ : option string)
    (page : gmap nat (gmap string string)) (l : list (nat * string))
    : result (gmap nat (gmap string string)) :=
  match l with
  | [] => Ok page
  | entry :: l' => page' ← restore_item class_ page entry; restore_items class_ page' l'
  end.

(** [Premailer.transform] from [rules = []] to the end of the loop that
    re-applies the inline styles.  [stylesheets] are the texts given to
    [_parse_style_rules], those of the [style] elements and then those of
    the external styles; [page] is the document once the [style] elements
    have been dealt with. *)
Definition transform (self : Premailer) (stylesheets : list string)
    (page : gmap nat (gmap string string))
    : result (gmap nat (gmap string string)) :=
  let rules := flat_map (λ css_body, (_parse_style_rules self css_body).1) stylesheets in
  rules ← _split_spacing_properties rules;
  '(st, class_) ← apply_rules (State page [] []) None rules;
  restore_items class_ (page_of st) (first_time_styles st).

End Transform.

(** ** A document for the examples

    A [p] element, numbered 0, with the inline style [inline], and an [a]
    element, numbered 1, without attributes; the selector-query service of
    this document answers the type selectors [p] and [a]. *)
Definition example_page (inline : string) : gmap nat (gmap string string) :=
  {[ 0 := {[ "style" := inline ]}; 1 := ∅ ]}.

Definition example_query (selector : string)
    (page : gmap nat (gmap string string)) : list nat :=
  if bool_decide (selector = "p") then [0]
  else if bool_decide (selector = "a") then [1]
  else [].

(** A key and a value as [parse_declarations] stores them: stripped, the key
    without [':'] and neither with [';']. *)
Definition clean_entry (k v : string) : Prop :=
  Str.lstrip k = k ∧ Str.rstrip k = k ∧
  Str.mem ":" k = false ∧ Str.mem ";" k = false ∧
  Str.lstrip v = v ∧ Str.rstrip v = v ∧ Str.mem ";" v = false.

Definition clean_block (d : gmap string string) : Prop :=
  ∀ k v, d !! k = Some v → clean_entry k v.

(** ** Texts that parse

    A declaration is read by [parse_declarations] when it is blank, and then
    skipped, or has a colon. *)
Definition declaration_ok (x : string) : Prop :=
  Str.strip x = "" ∨ Str.mem ":" x = true.

Definition block_ok (text : string) : Prop :=
  Forall declaration_ok (Str.split ";" text).

(** [old] is read as a whole when [grouping_regex] has no match in it, and
    as the contents of the matches otherwise. *)
Definition old_ok (old : string) : Prop :=
  match Regex.findall Regex.grouping_regex old with
  | [] => block_ok old
  | grouped_split => Forall (λ m, block_ok m.2) grouped_split
  end.

(** Every character of [s] satisfies [p]. *)
Fixpoint all_chars (p : ascii → bool) (s : string) : bool :=
  match s with
  | EmptyString => true
  | String a s' => p a && all_chars p s'
  end.

(** The text of an unconditional group [b1] and a group [b2] under
    [class_], as [_merge_styles] joins them. *)
Definition two_groups_text (b1 class_ b2 : string) : string :=
  ("{" +:+ b1 +:+ "}") +:+ " " +:+ (class_ +:+ "{" +:+ b2 +:+ "}").

(** ** The pairs that the rule extractor classifies

    The pairs (selector, bulk) of a stylesheet, in source order: the
    selectors of each block with the normalised declarations of the block. *)
Definition candidate_rules (css_body : string) : list rule :=
  flat_map
    (λ each : string * string * string,
       map (λ selector, (selector, normalize_bulk each.2)) (selector_list each.1.2))
    (Regex.findall Regex._regex
       (Str.strip (Regex.sub Regex._css_comments "" css_body))).

(** The first test of the loop: a pseudo-class selector that is set aside. *)
Definition is_leftover (self : Premailer) (r : rule) : bool :=
  Str.mem ":" r.1 && exclude_pseudoclasses self &&
  bool_decide (pseudo_suffix r.1 ∉ FILTER_PSEUDOSELECTORS).

(** The second test: the universal selector, dropped. *)
Definition is_dropped (self : Premailer) (r : rule) : bool :=
  bool_decide (r.1 = "*") && negb (include_star_selectors self).

(** ** The spacing locals along the rules

    What the locals [top], [right], [bottom], [left] hold after declaration
    [d], and after all the declarations of [rules]. *)
Definition locals_after_declaration (locals : option sides) (d : string)
    : option sides :=
  match Str.split ":" d with
  | [p; v] => if is_spacing p then assign_sides (Str.words v) locals else locals
  | _ => locals
  end.

Definition locals_after (locals : option sides) (rules : list rule) : option sides :=
  foldl (λ l r, foldl locals_after_declaration l (declarations r)) locals rules.

(** ** The record of the first visits

    What the loop over the rules keeps of a document [page]: an element is
    in [first_time] once, [first_time_styles] pairs the elements of
    [first_time], in the same order, with the style they have in [page], an
    element that is not in [first_time] is as it is in [page], and an
    element of [first_time] has a style attribute. *)
Definition recorded (page : gmap nat (gmap string string)) (st : state) : Prop :=
  NoDup (first_time st) ∧
  first_time_styles st = map (λ item, (item, get_style page item)) (first_time st) ∧
  (∀ item, item ∉ first_time st → page_of st !! item = page !! item) ∧
  (∀ item, item ∈ first_time st → is_Some (attrib (page_of st) item !! "style")).


(** ** The removal of [!important]

    [_importants], a run of white space and then the text [!important], at
    the start of [s].  The run is the longest one: the character after a
    shorter run is white space, which is not ['!']. *)
Definition _importants (s : string) : option nat :=
  let '(run, rest) := Str.span Str.is_space s in
  if Str.startswith "!important" rest then Some (String.length run + 10) else None.

(* ================================================================= *)
(** * Properties *)

(** ** Facts about the [str] methods *)

Module StrFacts.
Import Str.

Lemma app_cons (a : ascii) (s t : string) :
  String a s +:+ t = String a (s +:+ t).
Proof. done. Qed.

Lemma app_nil_r (s : string) : s +:+ "" = s.
Proof. induction s as [|a s IH]; [done|]. by rewrite app_cons, IH. Qed.

Lemma app_assoc (s t u : string) : (s +:+ t) +:+ u = s +:+ (t +:+ u).
Proof. induction s as [|a s IH]; [done|]. by rewrite !app_cons, IH. Qed.

Lemma split_length (c : ascii) (s : string) :
  length (split c s) = S (count c s).
Proof.
  induction s as [|a s IH]; [done|]. cbn.
  destruct (Ascii.eqb a c); cbn; [by rewrite IH|].
  destruct (split c s); cbn in *; lia.
Qed.

Lemma split_not_nil (c : ascii) (s : string) : split c s ≠ [].
Proof. intros H. pose proof (split_length c s) as Hl. by rewrite H in Hl. Qed.

Lemma split_two_iff (c : ascii) (s : string) :
  count c s = 1 ↔ ∃ p v, split c s = [p; v].
Proof.
  pose proof (split_length c s) as Hl. split.
  - intros Hc. rewrite Hc in Hl.
    destruct (split c s) as [|p [|v [|]]]; cbn in Hl; try lia. eauto.
  - intros (p & v & Hs). rewrite Hs in Hl. cbn in Hl. lia.
Qed.

Lemma join_split (c : ascii) (s : string) :
  join (String c "") (split c s) = s.
Proof.
  induction s as [|a s IH]; [done|]. cbn -[join].
  destruct (Ascii.eqb_spec a c) as [->|Hne].
  - pose proof (split_not_nil c s) as Hn.
    destruct (split c s) as [|w ws]; [done|].
    rewrite <- IH. done.
  - pose proof (split_not_nil c s) as Hn.
    destruct (split c s) as [|w ws]; [done|].
    rewrite <- IH. by destruct ws.
Qed.

(** [join] of a non-empty list, one step. *)
Lemma join_cons (sep x : string) (y : string) (l : list string) :
  join sep (x :: y :: l) = x +:+ sep +:+ join sep (y :: l).
Proof. done. Qed.

Lemma last_app_char (s : string) (c : ascii) :
  last (s +:+ String c "") = Ok c.
Proof.
  induction s as [|a s IH]; [done|].
  rewrite app_cons. cbn -[String.append]. rewrite IH. by destruct s.
Qed.

Lemma init_app_char (s : string) (c : ascii) :
  init (s +:+ String c "") = s.
Proof.
  induction s as [|a s IH]; [done|].
  rewrite app_cons. cbn -[String.append]. rewrite IH. by destruct s.
Qed.

End StrFacts.

(** ** The shorthand expander *)

Example split_spacing_two :
  _split_spacing_properties [("p", "margin:1px 2px")]
  = Ok [("p", "margin-top:1px;margin-right:2px;margin-bottom:1px;margin-left:2px")].
Proof. reflexivity. Qed.
Example split_spacing_counts :
  _split_spacing_properties
    [("a", "margin:1px"); ("b", "padding:1px 2px 3px");
     ("c", "color:red;margin:1px 2px 3px 4px;width:5px")]
  = Ok [("a", "margin-top:1px;margin-right:1px;margin-bottom:1px;margin-left:1px");
        ("b", "padding-top:1px;padding-right:2px;padding-bottom:3px;padding-left:2px");
        ("c", "color:red;margin-top:1px;margin-right:2px;margin-bottom:3px;margin-left:4px;width:5px")].
Proof. vm_compute. reflexivity. Qed.

(** A spacing declaration without values reuses the values of the previous
    one: the locals are still bound. *)
Example split_spacing_stale :
  _split_spacing_properties [("p", "margin:1px 2px;padding:")]
  = Ok [("p", "margin-top:1px;margin-right:2px;margin-bottom:1px;margin-left:2px;padding-top:1px;padding-right:2px;padding-bottom:1px;padding-left:2px")].
Proof. vm_compute. reflexivity. Qed.


Section Expander.
Import Str StrFacts.

#[local] Arguments expand_property : simpl never.
#[local] Arguments expand_rule : simpl never.

Lemma terminated_app (l1 l2 : list string) :
  terminated (l1 ++ l2) = terminated l1 +:+ terminated l2.
Proof.
  induction l1 as [|x l1 IH]; [done|].
  cbn -[String.append]. by rewrite IH, !app_assoc.
Qed.

Lemma terminated_join (l : list string) :
  l ≠ [] → terminated l = join ";" l +:+ ";".
Proof.
  induction l as [|x [|y l] IH]; [done| |]; intros _.
  - cbn -[String.append]. by rewrite app_nil_r.
  - rewrite join_cons.
    change (terminated (x :: y :: l)) with (x +:+ ";" +:+ terminated (y :: l)).
    rewrite IH by done. by rewrite !app_assoc.
Qed.

Lemma drop_trailing_terminated (l : list string) :
  l ≠ [] → drop_trailing_semicolon (terminated l) = Ok (join ";" l).
Proof.
  intros Hl. rewrite terminated_join by done.
  unfold drop_trailing_semicolon. rewrite last_app_char. cbn -[String.append].
  by rewrite init_app_char.
Qed.

Lemma new_properties_longhands (p : string) (s : sides) :
  new_properties p s = terminated (longhands p s).
Proof.
  unfold new_properties, longhands. cbn [terminated].
  by rewrite !app_assoc, app_nil_r.
Qed.

Lemma assign_sides_shorthand (values : list string) (cur : option sides) :
  1 ≤ length values ≤ 4 →
  assign_sides values cur = shorthand_sides values ∧ is_Some (shorthand_sides values).
Proof.
  destruct values as [|a [|b [|c [|d [|e l]]]]]; cbn; try lia; eauto.
Qed.

(** A margin or padding declaration with one to four values is replaced
    by its four longhands, whatever the locals held before. *)
Lemma expand_property_spacing locals properties d p v s :
  split ":" d = [p; v] → is_spacing p = true →
  shorthand_sides (words v) = Some s →
  expand_property (locals, properties) d
  = Ok (Some s, properties +:+ terminated (longhands p s)).
Proof.
  intros Hd Hp Hs. unfold expand_property. rewrite Hd, Hp.
  assert (assign_sides (words v) locals = Some s) as ->.
  { destruct (words v) as [|a [|b [|c [|e [|f l]]]]]; by simplify_eq/=. }
  by rewrite new_properties_longhands.
Qed.

Lemma expand_property_other locals properties d p v :
  split ":" d = [p; v] → is_spacing p = false →
  expand_property (locals, properties) d = Ok (locals, properties +:+ d +:+ ";").
Proof. intros Hd Hp. unfold expand_property. by rewrite Hd, Hp. Qed.

Lemma expand_property_bad st d :
  ¬ one_colon d → expand_property st d = Err ValueError.
Proof.
  intros Hd. destruct st as [locals properties]. unfold expand_property.
  destruct (split ":" d) as [|p [|v [|]]] eqn:Hs; try done.
  destruct Hd. apply split_two_iff. eauto.
Qed.

Lemma expand_property_wf locals properties d :
  one_colon d → spacing_arity_ok d →
  ∃ locals', expand_property (locals, properties) d
             = Ok (locals', properties +:+ terminated (expand_declaration d)).
Proof.
  intros (p & v & Hd)%split_two_iff Har.
  unfold spacing_arity_ok, expand_declaration in *. rewrite Hd in *.
  destruct (is_spacing p) eqn:Hp.
  - destruct (assign_sides_shorthand (words v) locals) as [_ [s Hs]]; [auto|].
    rewrite Hs. eexists. by eapply expand_property_spacing.
  - eexists. erewrite expand_property_other by done.
    cbn [terminated]. by rewrite app_nil_r.
Qed.

Lemma expand_properties_wf locals properties ds :
  Forall one_colon ds → Forall spacing_arity_ok ds →
  ∃ locals', expand_properties (locals, properties) ds
             = Ok (locals', properties +:+ terminated (flat_map expand_declaration ds)).
Proof.
  intros H1 H2. revert locals properties.
  induction ds as [|d ds IH]; intros locals properties.
  - eexists. cbn. by rewrite app_nil_r.
  - inversion_clear H1. inversion_clear H2.
    destruct (expand_property_wf locals properties d) as [l1 E1]; [done..|].
    destruct (IH ltac:(done) ltac:(done) l1
                (properties +:+ terminated (expand_declaration d))) as [l2 E2].
    exists l2. cbn [expand_properties flat_map]. rewrite E1. cbn.
    by rewrite E2, terminated_app, app_assoc.
Qed.

Lemma expand_declaration_not_nil d : expand_declaration d ≠ [].
Proof.
  unfold expand_declaration.
  destruct (split ":" d) as [|p [|v [|]]]; try done.
  destruct (is_spacing p); [|done].
  by destruct (shorthand_sides (words v)).
Qed.

Lemma expand_rule_wf locals r :
  well_formed r →
  ∃ locals', expand_rule locals r = Ok (locals', (r.1, expand_block r.2)).
Proof.
  destruct r as [selector style]. intros [H1 H2]. unfold declarations in *.
  destruct (expand_properties_wf locals "" _ H1 H2) as [l1 E1].
  exists l1. unfold expand_rule. cbn [snd fst] in *. rewrite E1. cbn.
  change ("" +:+ ?x) with x.
  rewrite drop_trailing_terminated; [done|].
  pose proof (split_not_nil ";" style) as Hn.
  destruct (split ";" style) as [|d ds]; [done|]. cbn [flat_map].
  pose proof (expand_declaration_not_nil d).
  by destruct (expand_declaration d).
Qed.

Lemma expand_rules_wf locals rules :
  Forall well_formed rules →
  expand_rules locals rules = Ok (map (λ r, (r.1, expand_block r.2)) rules).
Proof.
  intros H. revert locals. induction rules as [|r rules IH]; intros locals; [done|].
  inversion_clear H.
  destruct (expand_rule_wf locals r) as [l1 E1]; [done|].
  cbn [expand_rules map]. rewrite E1. cbn. by rewrite IH.
Qed.

Lemma shorthand_sides_assign (values : list string) (cur : option sides) (s : sides) :
  shorthand_sides values = Some s → assign_sides values cur = Some s.
Proof.
  destruct values as [|a [|b [|c [|d [|e l]]]]]; cbn; congruence.
Qed.

Lemma expand_property_ok locals properties d locals' properties' :
  expand_property (locals, properties) d = Ok (locals', properties') →
  ∃ pieces, expands_to d pieces ∧ pieces ≠ [] ∧
            properties' = properties +:+ terminated pieces.
Proof.
  unfold expand_property.
  destruct (split ":" d) as [|p [|v [|]]] eqn:Hd; try done.
  destruct (is_spacing p) eqn:Hp.
  - destruct (assign_sides (words v) locals) as [s0|] eqn:Hs; [|done].
    intros [= <- <-]. exists (longhands p s0). split; [|split; [done|]].
    + intros p' v' Hd'. rewrite Hd in Hd'. injection Hd' as <- <-.
      split; [congruence|]. intros s _ Hs'. apply (shorthand_sides_assign _ locals) in Hs'. congruence.
    + by rewrite new_properties_longhands.
  - intros [= <- <-]. exists [d]. split; [|split; [done|]].
    + intros p' v' Hd'. rewrite Hd in Hd'. injection Hd' as <- <-.
      split; [done|congruence].
    + cbn [terminated]. by rewrite app_nil_r.
Qed.

Lemma expand_properties_ok locals properties ds locals' properties' :
  expand_properties (locals, properties) ds = Ok (locals', properties') →
  ∃ pieces, Forall2 expands_to ds pieces ∧
            (ds ≠ [] → concat pieces ≠ []) ∧
            properties' = properties +:+ terminated (concat pieces).
Proof.
  revert locals properties.
  induction ds as [|d ds IH]; intros locals properties.
  - intros [= <- <-]. exists []. split; [constructor|]. split; [done|].
    cbn. by rewrite app_nil_r.
  - cbn [expand_properties].
    destruct (expand_property (locals, properties) d) as [[l1 p1]|] eqn:E1; [|done].
    cbn. intros E2.
    apply expand_property_ok in E1 as (ps & Hps & Hne & ->).
    apply IH in E2 as (pieces & Hpieces & _ & ->).
    exists (ps :: pieces). split; [by constructor|]. split.
    + intros _. cbn. by destruct ps.
    + cbn [concat]. by rewrite terminated_app, app_assoc.
Qed.

Lemma expand_rule_ok locals r locals' o :
  expand_rule locals r = Ok (locals', o) → rule_expands_to r o.
Proof.
  destruct r as [selector style]. unfold expand_rule.
  destruct (expand_properties (locals, "") (split ";" style))
    as [[l1 p1]|] eqn:E1; [|done].
  apply expand_properties_ok in E1 as (pieces & Hpieces & Hne & ->).
  cbn. change ("" +:+ ?x) with x.
  rewrite drop_trailing_terminated by (apply Hne, split_not_nil).
  cbn. intros [= <- <-]. split; [done|]. by exists pieces.
Qed.

Lemma expand_rules_ok locals rules orules :
  expand_rules locals rules = Ok orules → Forall2 rule_expands_to rules orules.
Proof.
  revert locals orules.
  induction rules as [|r rules IH]; intros locals orules.
  - intros [= <-]. constructor.
  - cbn [expand_rules].
    destruct (expand_rule locals r) as [[l1 o]|] eqn:E1; [|done]. cbn.
    destruct (expand_rules l1 rules) as [os|] eqn:E2; [|done]. cbn.
    intros [= <-]. constructor; [by eapply expand_rule_ok|by eapply IH].
Qed.

End Expander.

Section ExpanderTheorems.
Import Str StrFacts.

#[local] Arguments expand_property : simpl never.
#[local] Arguments expand_rule : simpl never.

Lemma no_shorthand_well_formed (r : rule) :
  Forall one_colon (declarations r) → no_shorthand r → well_formed r.
Proof.
  intros H1 H2. split; [done|]. unfold no_shorthand in H2.
  rewrite Forall_forall in *. intros d Hd.
  specialize (H2 d Hd). unfold spacing_arity_ok.
  destruct (split ":" d) as [|p [|v [|]]]; try done.
  cbn in H2. by rewrite H2.
Qed.

Lemma expand_block_no_shorthand (r : rule) :
  no_shorthand r → expand_block r.2 = r.2.
Proof.
  destruct r as [selector style]. unfold no_shorthand, declarations, expand_block.
  cbn [snd]. intros H.
  rewrite <- (join_split ";" style) at 2. f_equal.
  induction H as [|d ds Hd _ IH]; [done|].
  cbn [flat_map]. rewrite IH. unfold expand_declaration.
  destruct (split ":" d) as [|p [|v [|]]]; try done.
  cbn in Hd. by rewrite Hd.
Qed.

Lemma expand_properties_bad st ds :
  Exists (λ d, ¬ one_colon d) ds → is_ok (expand_properties st ds) = false.
Proof.
  intros H. revert st. induction H as [d ds Hd|d ds _ IH]; intros st.
  - cbn. by rewrite expand_property_bad.
  - cbn. destruct (expand_property st d); [apply IH|done].
Qed.

Lemma expand_rule_bad locals r :
  Exists (λ d, ¬ one_colon d) (declarations r) → is_ok (expand_rule locals r) = false.
Proof.
  destruct r as [selector style]. intros H. unfold expand_rule.
  pose proof (expand_properties_bad (locals, "") _ H) as Hb.
  unfold declarations in Hb. cbn [snd] in Hb.
  by destruct (expand_properties _ _).
Qed.

Lemma expand_rules_bad locals rules :
  Exists (λ r, Exists (λ d, ¬ one_colon d) (declarations r)) rules →
  is_ok (expand_rules locals rules) = false.
Proof.
  intros H. revert locals. induction H as [r rules Hr|r rules _ IH]; intros locals.
  - cbn. pose proof (expand_rule_bad locals r Hr).
    by destruct (expand_rule locals r) as [[??]|].
  - cbn. destruct (expand_rule locals r) as [[l1 r1]|]; [|done]. cbn.
    specialize (IH l1). by destruct (expand_rules l1 rules).
Qed.

(** With every spacing declaration within one to four values, the first
    declaration that stops the expansion is the one without exactly one
    colon, and the exception is the [ValueError] of the unpacking. *)
Lemma expand_properties_value_error locals properties ds :
  Forall spacing_arity_ok ds → Exists (λ d, ¬ one_colon d) ds →
  expand_properties (locals, properties) ds = Err ValueError.
Proof.
  intros Ha H. revert locals properties.
  induction ds as [|d ds IH]; intros locals properties; [by inversion H|].
  inversion_clear Ha. cbn.
  destruct (decide (one_colon d)) as [Hd|Hd].
  - destruct (expand_property_wf locals properties d) as [l1 ->]; [done..|].
    cbn. apply IH; [done|]. by inversion H.
  - by rewrite expand_property_bad.
Qed.

Lemma expand_rules_value_error locals rules :
  Forall (λ r, Forall spacing_arity_ok (declarations r)) rules →
  Exists (λ r, Exists (λ d, ¬ one_colon d) (declarations r)) rules →
  expand_rules locals rules = Err ValueError.
Proof.
  intros Ha H. revert locals.
  induction rules as [|r rules IH]; intros locals; [by inversion H|].
  inversion_clear Ha. cbn.
  destruct (decide (Forall one_colon (declarations r))) as [Hr|Hr].
  - destruct (expand_rule_wf locals r) as [l1 ->]; [done|]. cbn.
    rewrite IH; [done..|]. inversion H as [? ? Hbad|]; [|done].
    exfalso. rewrite Forall_forall in Hr. rewrite Exists_exists in Hbad.
    destruct Hbad as (d & Hd & Hnd). by apply Hnd, Hr.
  - apply not_Forall_Exists in Hr; [|apply _].
    destruct r as [selector style]. unfold expand_rule, declarations in *.
    cbn [snd] in *. by rewrite expand_properties_value_error.
Qed.

Lemma split_spacing_properties_expands_aux (rules : list rule) :
  Forall well_formed rules →
  _split_spacing_properties rules
  = Ok (map (λ r, (r.1, expand_block r.2)) rules).
Proof. apply expand_rules_wf. Qed.

(** C2. Whenever [_split_spacing_properties] returns, every rule keeps its
    selector and every declaration of its block is replaced in place, a
    declaration that is not a shorthand by itself and a [margin] or
    [padding] declaration with one, two, three or four space-separated
    values by its four longhands [-top], [-right], [-bottom], [-left], the
    values being assigned as [shorthand_sides] reads them: one value for all
    four sides; two values as top/bottom and left/right; three as top,
    left/right, bottom; four as top, right, bottom, left.  It does return,
    with the blocks [expand_block] gives, when every declaration has one
    colon and every [margin] or [padding] declaration has one to four
    values. *)
Theorem split_spacing_properties_expands (rules : list rule) :
  (∀ orules, _split_spacing_properties rules = Ok orules →
             Forall2 rule_expands_to rules orules) ∧
  (Forall well_formed rules →
   _split_spacing_properties rules
   = Ok (map (λ r, (r.1, expand_block r.2)) rules)).
Proof.
  split.
  - intros orules. apply expand_rules_ok.
  - apply split_spacing_properties_expands_aux.
Qed.

Lemma split_spacing_properties_expands_witness :
  Forall well_formed [("p", "margin:1px 2px")] ∧
  _split_spacing_properties [("p", "margin:1px 2px")]
  = Ok [("p", "margin-top:1px;margin-right:2px;margin-bottom:1px;margin-left:2px")].
Proof.
  assert (Forall well_formed [("p", "margin:1px 2px")]) as H.
  { constructor; [|constructor].
    split; (constructor; [|constructor]); vm_compute; [reflexivity|lia]. }
  split; [exact H|].
  exact (proj2 (split_spacing_properties_expands [("p", "margin:1px 2px")]) H).
Defined.

(** C7 (amended). On a rule list in which every declaration has exactly
    one colon and no declaration names [margin] or [padding],
    [_split_spacing_properties] returns the rules unchanged. *)
Theorem split_spacing_properties_idempotent (rules : list rule) :
  Forall (λ r, Forall one_colon (declarations r)) rules →
  Forall no_shorthand rules →
  _split_spacing_properties rules = Ok rules.
Proof.
  intros H1 H2. rewrite split_spacing_properties_expands_aux.
  - f_equal. induction rules as [|r rules IH]; [done|].
    inversion_clear H1. inversion_clear H2. cbn [map].
    rewrite IH by done. rewrite expand_block_no_shorthand by done.
    by destruct r.
  - rewrite Forall_forall in *. intros r Hr.
    apply no_shorthand_well_formed; auto.
Qed.

(** C7, as stated, fails on a block that has no shorthand at all: a value
    with a colon of its own stops the expansion. *)
Lemma split_spacing_properties_not_idempotent :
  no_shorthand ("p", "background:url(http://x/y.png)") ∧
  _split_spacing_properties [("p", "background:url(http://x/y.png)")]
  ≠ Ok [("p", "background:url(http://x/y.png)")].
Proof. split; [by repeat constructor|by vm_compute]. Qed.

Lemma split_spacing_properties_idempotent_witness :
  _split_spacing_properties [("p", "color:red;margin-top:1px")]
  = Ok [("p", "color:red;margin-top:1px")].
Proof.
  apply split_spacing_properties_idempotent.
  - constructor; [|constructor]. by repeat constructor.
  - constructor; [|constructor]. by repeat constructor.
Defined.

(** C8 (amended). [_split_spacing_properties] raises an exception on every
    rule list with a declaration that does not have exactly one colon; the
    exception is [ValueError] when every [margin] or [padding] declaration
    has one to four values.  On a rule list in which every declaration has
    exactly one colon and every [margin] or [padding] declaration has one
    to four values, it returns. *)
Theorem split_spacing_properties_fails (rules : list rule) :
  (Exists (λ r, Exists (λ d, ¬ one_colon d) (declarations r)) rules →
     is_ok (_split_spacing_properties rules) = false ∧
     (Forall (λ r, Forall spacing_arity_ok (declarations r)) rules →
      _split_spacing_properties rules = Err ValueError)) ∧
  (Forall well_formed rules →
     ∃ orules, _split_spacing_properties rules = Ok orules).
Proof.
  split.
  - intros H. split; [by apply expand_rules_bad|].
    intros Ha. by apply expand_rules_value_error.
  - intros H. eexists. by apply expand_rules_wf.
Qed.

(** C8, as stated, fails: one colon in every declaration is not enough
    for the expansion to return. *)
Lemma split_spacing_properties_one_colon_fails :
  Forall (λ r, Forall one_colon (declarations r)) [("p", "margin:")] ∧
  _split_spacing_properties [("p", "margin:")] = Err UnboundLocalError.
Proof. split; [by repeat constructor|by vm_compute]. Qed.

Lemma split_spacing_properties_fails_witness :
  _split_spacing_properties [("p", "color")] = Err ValueError ∧
  _split_spacing_properties [("p", "background:url(http://x/y.png)")]
  = Err ValueError ∧
  ∃ orules, _split_spacing_properties [("p", "color:red;margin:0 auto")]
            = Ok orules.
Proof.
  split; [|split].
  - apply (split_spacing_properties_fails [("p", "color")]).
    + constructor. constructor. by vm_compute.
    + constructor; [|constructor]. constructor; [|constructor]. by vm_compute.
  - apply (split_spacing_properties_fails
             [("p", "background:url(http://x/y.png)")]).
    + constructor. constructor. by vm_compute.
    + constructor; [|constructor]. constructor; [|constructor]. by vm_compute.
  - apply (split_spacing_properties_fails [("p", "color:red;margin:0 auto")]).
    constructor; [|constructor].
    split; (constructor; [|constructor; [|constructor]]);
      vm_compute; try reflexivity; try lia; done.
Defined.

End ExpanderTheorems.

(** ** Dictionaries and their iteration order *)

Section DictFacts.
Context `{DictOrder}.

Lemma items_lookup {V : Type} (m : gmap string V) (k : string) (v : V) :
  (k, v) ∈ items m ↔ m !! k = Some v.
Proof. by rewrite items_perm, elem_of_map_to_list. Qed.

Lemma items_nil_iff {V : Type} (m : gmap string V) : items m = [] ↔ m = ∅.
Proof.
  rewrite <- map_to_list_empty_iff. split; intros E.
  - apply Permutation_nil_r. by rewrite <- items_perm, E.
  - apply Permutation_nil_r. by rewrite items_perm, E.
Qed.

Lemma items_one {V : Type} (m : gmap string V) (a : string * V) :
  map_to_list m = [a] → items m = [a].
Proof. intros E. apply Permutation_singleton_r. by rewrite items_perm, E. Qed.

Lemma items_two {V : Type} (m : gmap string V) (a b : string * V) :
  map_to_list m = [a; b] → items m = [a; b] ∨ items m = [b; a].
Proof.
  intros E. pose proof (items_perm V m) as Hp. rewrite E in Hp.
  symmetry in Hp. pose proof (Permutation_length Hp) as Hl.
  destruct (items m) as [|x [|y [|]]]; try done.
  apply Permutation_length_2_inv in Hp as [Hp|Hp]; simplify_eq; auto.
Qed.

Lemma items_singleton {V : Type} (k : string) (v : V) :
  items ({[ k := v ]} : gmap string V) = [(k, v)].
Proof. apply items_one, map_to_list_singleton. Qed.

Lemma list_to_map_items {V : Type} (m : gmap string V) :
  list_to_map (items m) = m.
Proof.
  rewrite <- (list_to_map_to_list m) at 2.
  apply list_to_map_proper; [|apply items_perm].
  rewrite items_perm. apply NoDup_fst_map_to_list.
Qed.

(** The merge loop computes the union that prefers [merged]. *)
Lemma merge_into_union (merged : gmap string string) (kvs : list (string * string)) :
  merge_into merged kvs = merged ∪ list_to_map kvs.
Proof.
  unfold merge_into. revert merged.
  induction kvs as [|[k v] kvs IH]; intros merged.
  - cbn. by rewrite (right_id_L ∅ (∪)).
  - cbn [foldl list_to_map foldr fst snd]. rewrite IH. apply map_eq. intros i.
    rewrite !lookup_union.
    destruct (merged !! k) as [w|] eqn:Hk.
    + destruct (decide (i = k)) as [->|Hne].
      * rewrite Hk. by rewrite !(union_Some_l).
      * by rewrite lookup_insert_ne.
    + destruct (decide (i = k)) as [->|Hne].
      * rewrite Hk, !lookup_insert_eq. by rewrite union_Some_l.
      * by rewrite !lookup_insert_ne.
Qed.

Lemma merge_into_items (merged olds : gmap string string) :
  merge_into merged (items olds) = merged ∪ olds.
Proof. by rewrite merge_into_union, list_to_map_items. Qed.

Lemma merge_groups_lookup (groups : gmap string (gmap string string))
    (news : gmap string string) (class_ : string) :
  merge_groups groups news class_
  = <[class_ := news ∪ default ∅ (groups !! class_)]> groups.
Proof. unfold merge_groups. by rewrite merge_into_items. Qed.

End DictFacts.

(** ** The stable sort on the number of colons *)

Section SortFacts.
Context {V : Type}.
Implicit Types (x : string * V) (l : list (string * V)).

Lemma insert_by_colons_perm x l : insert_by_colons x l ≡ₚ x :: l.
Proof.
  induction l as [|y l IH]; [done|]. cbn.
  case_match; [done|]. by rewrite IH, Permutation_swap.
Qed.

Lemma sorted_by_colons_perm l : sorted_by_colons l ≡ₚ l.
Proof.
  induction l as [|x l IH]; [done|]. cbn.
  by rewrite insert_by_colons_perm, IH.
Qed.

Lemma insert_by_colons_sorted x l :
  StronglySorted colons_le l → StronglySorted colons_le (insert_by_colons x l).
Proof.
  induction 1 as [|y l Hl IH Hy]; cbn.
  - by repeat constructor.
  - destruct (Nat.leb_spec (Str.count ":" x.1) (Str.count ":" y.1)) as [Hle|Hgt].
    + constructor; [by constructor|]. constructor; [done|].
      eapply Forall_impl; [exact Hy|]. unfold colons_le. intros; cbn in *; lia.
    + constructor; [done|]. rewrite insert_by_colons_perm.
      constructor; [|done]. unfold colons_le. lia.
Qed.

Lemma sorted_by_colons_sorted l : StronglySorted colons_le (sorted_by_colons l).
Proof.
  induction l as [|x l IH]; [constructor|]. by apply insert_by_colons_sorted.
Qed.

(** Stability: entries with the same number of colons keep their order. *)
Lemma insert_by_colons_stable (n : nat) x l :
  filter (λ y, Str.count ":" y.1 = n) (insert_by_colons x l)
  = filter (λ y, Str.count ":" y.1 = n) (x :: l).
Proof.
  induction l as [|y l IH]; [done|]. cbn [insert_by_colons].
  destruct (Nat.leb_spec (Str.count ":" x.1) (Str.count ":" y.1)) as [Hle|Hgt]; [done|].
  rewrite (filter_cons _ y), IH, !(filter_cons _ x), (filter_cons _ y).
  destruct (decide (Str.count ":" y.1 = n)) as [Hy|Hy]; [|done].
  destruct (decide (Str.count ":" x.1 = n)); [lia|done].
Qed.

Lemma sorted_by_colons_stable (n : nat) l :
  filter (λ y, Str.count ":" y.1 = n) (sorted_by_colons l)
  = filter (λ y, Str.count ":" y.1 = n) l.
Proof.
  induction l as [|x l IH]; [done|]. cbn [sorted_by_colons foldr].
  rewrite insert_by_colons_stable, !(filter_cons _ x).
  fold (sorted_by_colons l). by rewrite IH.
Qed.

End SortFacts.

(** ** The merge engine *)

Section MergeFacts.
Context `{DictOrder}.
Import Str StrFacts.

Lemma app_eq_nil (s t : string) : s +:+ t = "" → s = "" ∧ t = "".
Proof. by destruct s. Qed.

Lemma join_cons_eq_nil (sep x : string) (l : list string) :
  join sep (x :: l) = "" → x = "".
Proof. destruct l; [done|]. rewrite join_cons. by intros [? _]%app_eq_nil. Qed.

Lemma format_block_nil_iff (d : gmap string string) :
  format_block d = "" ↔ d = ∅.
Proof.
  rewrite <- items_nil_iff. unfold format_block. split.
  - destruct (items d) as [|[k v] l]; [done|]. cbn [map fst snd].
    intros E%join_cons_eq_nil. by destruct k.
  - by intros ->.
Qed.

(** Only the empty group under the empty key is rendered as ["{}"]. *)
Lemma format_group_braces (g : string * gmap string string) :
  format_group g = "{}" ↔ g.1 = "" ∧ g.2 = ∅.
Proof.
  destruct g as [key d]. unfold format_group. cbn [fst snd]. split.
  - intros E. destruct key as [|a [|b key]].
    + split; [done|]. apply format_block_nil_iff.
      destruct (format_block d) as [|c s]; [done|].
      cbv [String.append] in E. fold String.append in E.
      injection E as _ E. by destruct s.
    + cbv [String.append] in E. fold String.append in E. by simplify_eq.
    + cbv [String.append] in E. fold String.append in E.
      injection E as _ E. by destruct key.
  - intros [-> ->]. by rewrite (proj2 (format_block_nil_iff ∅)).
Qed.

Lemma filter_format_group (l : list (string * gmap string string)) :
  filter (λ x, x ≠ "{}") (map format_group l)
  = map format_group (filter (λ g, ¬ (g.1 = "" ∧ g.2 = ∅)) l).
Proof.
  induction l as [|g l IH]; [done|]. cbn [map].
  rewrite !filter_cons, IH.
  destruct (decide (format_group g ≠ "{}")) as [Hg|Hg];
    rewrite format_group_braces in Hg.
  - by rewrite decide_True.
  - by rewrite decide_False.
Qed.

Lemma serialize_many (groups : gmap string (gmap string string)) :
  size groups ≠ 1 →
  serialize groups
  = Ok (join " " (map format_group
          (filter (λ g, ¬ (g.1 = "" ∧ g.2 = ∅)) (sorted_by_colons (items groups))))).
Proof.
  intros Hs. unfold serialize.
  destruct (Nat.eqb_spec (size groups) 1); [done|].
  by rewrite filter_format_group.
Qed.

Lemma serialize_one (key : string) (d : gmap string string) :
  serialize {[ key := d ]} = Ok (format_block d).
Proof.
  unfold serialize. rewrite map_size_singleton. cbn.
  by rewrite items_singleton.
Qed.

Lemma parse_old_flat (old : string) :
  Regex.findall Regex.grouping_regex old = [] →
  parse_old old = olds ← parse_declarations old; mret {[ "" := olds ]}.
Proof. unfold parse_old. by intros ->. Qed.

Lemma parse_old_grouped (old : string) :
  Regex.findall Regex.grouping_regex old ≠ [] →
  parse_old old = parse_groups ∅ (Regex.findall Regex.grouping_regex old).
Proof. unfold parse_old. by destruct (Regex.findall _ _). Qed.

(** The merge of two flat texts under the empty key. *)
Lemma merge_styles_flat (old new : string) (news olds : gmap string string) :
  Regex.findall Regex.grouping_regex old = [] →
  parse_declarations new = Ok news →
  parse_declarations old = Ok olds →
  _merge_styles old new "" = Ok (format_block (news ∪ olds)).
Proof.
  intros Hflat Hn Ho. unfold _merge_styles.
  rewrite Hn, parse_old_flat, Ho by done. cbn.
  rewrite merge_groups_lookup, lookup_singleton_eq. cbn.
  rewrite insert_singleton_eq. apply serialize_one.
Qed.

End MergeFacts.

Section MergeUnfold.
Context `{DictOrder}.
Import Str StrFacts.

Lemma merge_styles_unfold (old new class_ : string)
    (news : gmap string string) (groups : gmap string (gmap string string)) :
  parse_declarations new = Ok news →
  parse_old old = Ok groups →
  _merge_styles old new class_
  = serialize (<[class_ := news ∪ default ∅ (groups !! class_)]> groups).
Proof.
  intros Hn Hg. unfold _merge_styles. rewrite Hn, Hg. cbn.
  by rewrite merge_groups_lookup.
Qed.

Lemma parse_groups_lookup (g0 groups : gmap string (gmap string string))
    (ms : list (string * string)) (key : string) (d : gmap string string) :
  parse_groups g0 ms = Ok groups → groups !! key = Some d →
  g0 !! key = Some d ∨
  ∃ content, (key, content) ∈ ms ∧ parse_declarations content = Ok d.
Proof.
  revert g0. induction ms as [|[old_class old_content] ms IH]; intros g0 Hp Hk.
  - cbn in Hp. simplify_eq. by left.
  - cbn [parse_groups] in Hp.
    destruct (parse_declarations old_content) as [olds|] eqn:Ho; [|done].
    cbn in Hp. destruct (IH _ Hp Hk) as [Hin|(content & Hin & Hc)].
    + destruct (decide (old_class = key)) as [->|Hne].
      * rewrite lookup_insert_eq in Hin. simplify_eq.
        right. exists old_content. split; [left|done].
      * rewrite lookup_insert_ne in Hin by done. by left.
    + right. exists content. split; [by right|done].
Qed.

End MergeUnfold.

(** ** The attribute mapper *)

Section MapperFacts.
Context `{DictOrder}.
Import Str StrFacts.

(** The legacy attributes. *)
Lemma project_declaration_keys (attributes : gmap string string) (x k : string) :
  is_Some (project_declaration attributes x !! k) →
  is_Some (attributes !! k) ∨ k ∈ ["align"; "bgcolor"; "width"; "height"].
Proof.
  unfold project_declaration.
  destruct (split ":" x) as [|key [|value [|]]]; auto.
  repeat case_bool_decide; cbn [orb]; try (by auto);
    (destruct (decide (k = "align")) as [->|];
     [right; set_solver|]);
    (destruct (decide (k = "bgcolor")) as [->|];
     [right; set_solver|]);
    (destruct (decide (k = "width")) as [->|];
     [right; set_solver|]);
    (destruct (decide (k = "height")) as [->|];
     [right; set_solver|]);
    rewrite lookup_insert_ne by congruence; auto.
Qed.

Lemma basic_attributes_keys (style_content k : string) :
  is_Some (basic_attributes style_content !! k) →
  k ∈ ["align"; "bgcolor"; "width"; "height"].
Proof.
  unfold basic_attributes.
  generalize (split ";" (unconditional_text style_content)). intros l.
  assert (∀ a0 : gmap string string,
    is_Some (foldl project_declaration a0 l !! k) →
    is_Some (a0 !! k) ∨ k ∈ ["align"; "bgcolor"; "width"; "height"]) as Hgen.
  { induction l as [|x l IH]; intros a0; cbn; [auto|].
    intros [Hk|Hk]%IH; [|auto]. by apply project_declaration_keys in Hk. }
  intros [Hk|Hk]%Hgen; [|done]. rewrite lookup_empty in Hk. by destruct Hk.
Qed.

Lemma foldl_ext {A B : Type} (f g : A → B → A) (a : A) (l : list B) :
  (∀ a b, f a b = g a b) → foldl f a l = foldl g a l.
Proof.
  intros Hfg. revert a. induction l as [|b l IH]; intros a; [done|].
  cbn. by rewrite Hfg, IH.
Qed.

Lemma foldl_insert_union (element : gmap string string) (l : list (string * string)) :
  NoDup l.*1 →
  foldl (λ a kv, <[kv.1 := kv.2]> a) element l = list_to_map l ∪ element.
Proof.
  revert element. induction l as [|[k v] l IH]; intros element Hnd.
  - cbn. by rewrite (left_id_L ∅ (∪)).
  - cbn [foldl fst snd]. rewrite fmap_cons in Hnd. apply NoDup_cons in Hnd as [Hk Hnd].
    rewrite IH by done. cbn [list_to_map foldr fst snd].
    rewrite <- insert_union_l, <- insert_union_r; [done|].
    by apply not_elem_of_list_to_map_1.
Qed.

(** With [force], the projected attributes overwrite the element's. *)
Lemma style_to_basic_html_attributes_force (element : gmap string string)
    (style_content : string) :
  _style_to_basic_html_attributes element style_content true
  = basic_attributes style_content ∪ element.
Proof.
  unfold _style_to_basic_html_attributes.
  rewrite <- (list_to_map_items (basic_attributes style_content)) at 2.
  rewrite <- foldl_insert_union.
  - apply foldl_ext. intros a kv. by rewrite andb_false_r.
  - rewrite items_perm. apply NoDup_fst_map_to_list.
Qed.

Lemma style_to_basic_html_attributes_style (element : gmap string string)
    (style_content : string) :
  _style_to_basic_html_attributes element style_content true !! "style"
  = element !! "style".
Proof.
  rewrite style_to_basic_html_attributes_force.
  apply lookup_union_r.
  destruct (basic_attributes style_content !! "style") eqn:E; [|done].
  assert ("style" ∈ ["align"; "bgcolor"; "width"; "height"]) as Hin
    by (apply (basic_attributes_keys style_content); eauto).
  rewrite !elem_of_cons, elem_of_nil in Hin.
  by destruct Hin as [?|[?|[?|[?|?]]]].
Qed.

End MapperFacts.

(** ** Evaluation under any iteration order *)

Section AnyOrder.
Context `{DictOrder}.
Import Str StrFacts.

Lemma format_block_empty : format_block ∅ = "".
Proof. by apply format_block_nil_iff. Qed.

Lemma format_block_one (d : gmap string string) (k v : string) :
  map_to_list d = [(k, v)] → format_block d = k +:+ ":" +:+ v.
Proof. intros E. unfold format_block. by rewrite (items_one d (k, v)). Qed.

Lemma format_block_two (d : gmap string string) (a b : string * string) :
  map_to_list d = [a; b] →
  format_block d = (a.1 +:+ ":" +:+ a.2) +:+ "; " +:+ (b.1 +:+ ":" +:+ b.2) ∨
  format_block d = (b.1 +:+ ":" +:+ b.2) +:+ "; " +:+ (a.1 +:+ ":" +:+ a.2).
Proof.
  intros E. unfold format_block.
  destruct (items_two d a b E) as [-> | ->]; auto.
Qed.

(** Two groups whose keys differ in their number of colons are emitted in
    one order only. *)
Lemma serialize_two (groups : gmap string (gmap string string))
    (g1 g2 : string * gmap string string) :
  map_to_list groups ≡ₚ [g1; g2] →
  count ":" g1.1 < count ":" g2.1 →
  serialize groups
  = Ok (join " " (filter (λ x, x ≠ "{}") [format_group g1; format_group g2])).
Proof.
  intros Hp Hlt. unfold serialize.
  assert (size groups = 2) as ->.
  { by rewrite <- length_map_to_list, Hp. }
  cbn [Nat.eqb].
  assert (items groups ≡ₚ [g1; g2]) as Hi by (by rewrite items_perm).
  symmetry in Hi. pose proof (Permutation_length Hi) as Hl.
  destruct (items groups) as [|x [|y [|]]]; try done.
  apply Permutation_length_2_inv in Hi as [Hi|Hi]; simplify_eq;
    cbn [sorted_by_colons foldr insert_by_colons];
    match goal with
    | |- context [Nat.leb ?a ?b] => destruct (Nat.leb_spec a b)
    end; done || lia.
Qed.

End AnyOrder.

(** ** Text in front of the first brace group *)

Section FindallFacts.
Import Str StrFacts.

Lemma span_key_stops (junk : string) (c : ascii) (s : string) :
  mem "{" junk = false → Regex.is_key_char c = false → c ≠ "{"%char →
  ∃ key b rest,
    span Regex.is_key_char (junk +:+ String c s) = (key, String b rest) ∧
    b ≠ "{"%char.
Proof.
  intros Hj Hc Hb. induction junk as [|a junk IH].
  - exists "", c, s. change ("" +:+ ?x) with x. cbn. by rewrite Hc.
  - cbn in Hj. apply orb_false_iff in Hj as [Ha Hj].
    rewrite app_cons. cbn -[String.append].
    destruct (Regex.is_key_char a).
    + destruct (IH Hj) as (key & b & rest & -> & Hb'). by exists (String a key), b, rest.
    + exists "", a, (junk +:+ String c s). split; [done|].
      intros ->. by rewrite Ascii.eqb_refl in Ha.
Qed.

Lemma grouping_regex_junk (junk : string) (c : ascii) (s : string) :
  mem "{" junk = false → Regex.is_key_char c = false → c ≠ "{"%char →
  Regex.grouping_regex (junk +:+ String c s) = None.
Proof.
  intros Hj Hc Hb. unfold Regex.grouping_regex.
  destruct (span_key_stops junk c s Hj Hc Hb) as (key & b & rest & -> & Hb').
  by destruct (Ascii.eqb_spec b "{").
Qed.

(** Text without ['{'] that ends with a character outside the key class, a
    space or a [';'] say, has no match and ends every key: the matches are
    those of what follows it. *)
Lemma grouping_findall_junk (junk : string) (c : ascii) (s : string) :
  mem "{" junk = false → Regex.is_key_char c = false → c ≠ "{"%char →
  Regex.findall Regex.grouping_regex (junk +:+ String c s)
  = Regex.findall Regex.grouping_regex s.
Proof.
  intros Hj Hc Hb. unfold Regex.findall. induction junk as [|a junk IH].
  - pose proof (grouping_regex_junk "" c s Hj Hc Hb) as Hn.
    change ("" +:+ ?x) with x in *. cbn [Regex.findall_from]. by rewrite Hn.
  - pose proof (grouping_regex_junk (String a junk) c s Hj Hc Hb) as Hn.
    cbn in Hj. apply orb_false_iff in Hj as [_ Hj].
    rewrite app_cons in *. cbn [Regex.findall_from]. rewrite Hn. by apply IH.
Qed.

End FindallFacts.

Section SerializeTheorems.
Import Str StrFacts.

(** C5 (amended). When the merged groups are more than one,
    [_merge_styles] returns the groups rendered as [key{prop:value; ...}]
    and joined by spaces, in ascending order of the number of colons of
    their keys, less the empty group of the empty key, rendered ["{}"];
    an empty group under any other key is emitted as [key{}]. *)
Theorem merge_styles_serializes_groups `{DictOrder} (old new class_ : string)
    (news : gmap string string) (groups : gmap string (gmap string string)) :
  parse_declarations new = Ok news →
  parse_old old = Ok groups →
  1 < size (merge_groups groups news class_) →
  ∃ ordered,
    ordered ≡ₚ map_to_list (merge_groups groups news class_) ∧
    StronglySorted colons_le ordered ∧
    _merge_styles old new class_
    = Ok (join " " (map format_group
            (filter (λ g, ¬ (g.1 = "" ∧ g.2 = ∅)) ordered))).
Proof.
  intros Hn Hg Hs.
  exists (sorted_by_colons (items (merge_groups groups news class_))).
  split; [by rewrite sorted_by_colons_perm, items_perm|].
  split; [apply sorted_by_colons_sorted|].
  unfold _merge_styles. rewrite Hn, Hg. cbn.
  apply serialize_many. lia.
Qed.

Lemma merge_styles_serializes_groups_witness :
  ∃ ordered,
    ordered ≡ₚ [("", {[ "color" := "red" ]}); (":hover", {[ "color" := "blue" ]})] ∧
    StronglySorted colons_le ordered ∧
    @_merge_styles key_order "color:red" "color:blue" ":hover"
    = Ok (join " " (map (@format_group key_order)
            (filter (λ g, ¬ (g.1 = "" ∧ g.2 = ∅)) ordered))).
Proof.
  destruct (@merge_styles_serializes_groups key_order
              "color:red" "color:blue" ":hover"
              {[ "color" := "blue" ]} {[ "" := {[ "color" := "red" ]} ]})
    as (ordered & Hp & Hsorted & Hm);
    [vm_compute; reflexivity| vm_compute; reflexivity | vm_compute; lia |].
  exists ordered. split; [|by split].
  rewrite Hp. vm_compute. apply Permutation_swap.
Defined.

(** C5, as stated, fails: an empty group under [":hover"] is emitted. *)
Lemma merge_styles_emits_empty_group :
  @_merge_styles key_order "a:b" "" ":hover" = Ok "{a:b} :hover{}".
Proof. vm_compute. reflexivity. Qed.

(** The same under every iteration order. *)
Lemma merge_styles_emits_empty_group_any `{DictOrder} :
  _merge_styles "a:b" "" ":hover" = Ok "{a:b} :hover{}".
Proof.
  rewrite (merge_styles_unfold _ _ _ ∅ {[ "" := {[ "a" := "b" ]} ]})
    by (vm_compute; reflexivity).
  rewrite (serialize_two _ ("", {[ "a" := "b" ]}) (":hover", ∅)).
  - unfold format_group. cbn [fst snd].
    rewrite format_block_empty, (format_block_one _ "a" "b") by done.
    vm_compute. reflexivity.
  - vm_compute. apply Permutation_swap.
  - vm_compute. lia.
Qed.

(** C10. When [old] has at least one brace group, the result of
    [_merge_styles] is that of the merge of [news] into the groups parsed
    from the matches of [grouping_regex] alone: another [old] with the
    same matches gives the same result, and every property of every group
    of the merged result comes from [new] or from the content of a matched
    group of the same key.  What [old] has outside the matches is
    discarded: text without ['{'] put in front of [old], with a character
    outside the key class at its end, changes nothing. *)
Theorem merge_styles_grouped_old `{DictOrder} (old new class_ : string)
    (news : gmap string string) (groups : gmap string (gmap string string)) :
  Regex.findall Regex.grouping_regex old ≠ [] →
  parse_declarations new = Ok news →
  parse_old old = Ok groups →
  _merge_styles old new class_ = serialize (merge_groups groups news class_) ∧
  (∀ old', Regex.findall Regex.grouping_regex old'
           = Regex.findall Regex.grouping_regex old →
           _merge_styles old' new class_ = _merge_styles old new class_) ∧
  (∀ junk c, mem "{" junk = false → Regex.is_key_char c = false → c ≠ "{"%char →
             _merge_styles (junk +:+ String c old) new class_
             = _merge_styles old new class_) ∧
  (∀ key d k v,
     merge_groups groups news class_ !! key = Some d → d !! k = Some v →
     (key = class_ ∧ news !! k = Some v) ∨
     ∃ content olds,
       (key, content) ∈ Regex.findall Regex.grouping_regex old ∧
       parse_declarations content = Ok olds ∧ olds !! k = Some v).
Proof.
  intros Hne Hn Hg.
  assert (∀ old', Regex.findall Regex.grouping_regex old'
                  = Regex.findall Regex.grouping_regex old →
                  _merge_styles old' new class_ = _merge_styles old new class_)
    as Hsame; [|split; [|split; [done|split]]].
  2: { unfold _merge_styles. by rewrite Hn, Hg. }
  2: { intros junk c Hj Hc Hb. by apply Hsame, grouping_findall_junk. }
  - intros old' E. unfold _merge_styles.
    rewrite (parse_old_grouped old), (parse_old_grouped old') by congruence.
    by rewrite E.
  - intros key d k v Hd Hk. rewrite merge_groups_lookup in Hd.
    rewrite parse_old_grouped in Hg by done.
    assert (∀ d', groups !! key = Some d' → d' !! k = Some v →
              ∃ content olds,
                (key, content) ∈ Regex.findall Regex.grouping_regex old ∧
                parse_declarations content = Ok olds ∧ olds !! k = Some v) as Hold.
    { intros d' Hd' Hk'.
      destruct (parse_groups_lookup _ _ _ _ _ Hg Hd') as [Hin|(content & Hin & Hc)].
      - by rewrite lookup_empty in Hin.
      - by exists content, d'. }
    destruct (decide (class_ = key)) as [->|Hne'].
    + rewrite lookup_insert_eq in Hd. simplify_eq.
      apply lookup_union_Some_raw in Hk as [Hk|[_ Hk]]; [by left|right].
      destruct (groups !! key) as [d'|] eqn:Hd'; cbn in Hk.
      * by apply (Hold d').
      * by rewrite lookup_empty in Hk.
    + rewrite lookup_insert_ne in Hd by done. right. by apply (Hold d).
Qed.

Lemma merge_styles_grouped_old_witness :
  @_merge_styles key_order "color:red {a:b}" "c:d" ""
  = @_merge_styles key_order "{a:b}" "c:d" "".
Proof.
  destruct (@merge_styles_grouped_old key_order "{a:b}" "c:d" ""
              {[ "c" := "d" ]} {[ "" := {[ "a" := "b" ]} ]})
    as (_ & _ & Hjunk & _); [vm_compute; done..|].
  apply (Hjunk "color:red" " "%char); vm_compute; done.
Defined.

(** The declaration outside the braces is gone, under every order. *)
Lemma merge_styles_discards_outside `{DictOrder} :
  ∃ s, _merge_styles "color:red {a:b}" "c:d" "" = Ok s ∧
       contains "a:b" s = true ∧ contains "c:d" s = true ∧
       contains "color" s = false.
Proof.
  rewrite (merge_styles_unfold _ _ _ {[ "c" := "d" ]} {[ "" := {[ "a" := "b" ]} ]})
    by (vm_compute; reflexivity).
  rewrite lookup_singleton_eq, insert_singleton_eq, serialize_one.
  change (default ∅ (Some ?x)) with x.
  destruct (format_block_two ({[ "c" := "d" ]} ∪ {[ "a" := "b" ]}) ("c", "d") ("a", "b"))
    as [-> | ->]; [vm_compute; reflexivity|..];
    (eexists; split; [reflexivity|by vm_compute]).
Qed.

End SerializeTheorems.

(** ** The orchestrator *)

Section TransformFacts.
Context `{DictOrder}.
Import Str StrFacts.

Lemma get_style_set_style (page : gmap nat (gmap string string)) (item : nat)
    (new_style : string) :
  get_style (set_style page item new_style) item = new_style.
Proof.
  unfold get_style, set_style, attrib. rewrite lookup_insert_eq. cbn.
  by rewrite style_to_basic_html_attributes_style, lookup_insert_eq.
Qed.

(** The style attribute of [item] once [visit_item] has run is the style
    computed for it. *)
Lemma visit_item_style (style class_ : string) (st : state) (item : nat) :
  (λ st', get_style (page_of st') item) <$> visit_item style class_ st item
  = new_style_for style class_ st item.
Proof.
  unfold visit_item.
  destruct (new_style_for style class_ st item) as [new_style|e]; [|done].
  cbn. case_bool_decide; cbn; by rewrite get_style_set_style.
Qed.

Lemma visit_item_snapshot (style class_ : string) (st st' : state) (item : nat) :
  item ∉ first_time st →
  visit_item style class_ st item = Ok st' →
  first_time st' = first_time st ++ [item] ∧
  first_time_styles st'
  = first_time_styles st ++ [(item, get_style (page_of st) item)].
Proof.
  intros Hnew. unfold visit_item.
  destruct (new_style_for style class_ st item) as [new_style|e]; [|done].
  cbn. rewrite bool_decide_true by done. cbn. by intros [= <-].
Qed.

End TransformFacts.

Section TransformTheorems.
Import Str StrFacts.

(** C3 (amended). For an element visited for the first time, with [inline]
    its style attribute: when [inline] is not empty the style computed is
    [_merge_styles] with [old] the declarations of the rule and [new] the
    inline style, so that for flat texts under the empty key every inline
    declaration keeps its value; when [inline] is empty it is
    [_merge_styles] with [old] the empty inline style and [new] the
    declarations of the rule.  In both cases the inline style is recorded
    for the final pass. *)
Theorem first_touch_merge `{DictOrder} (style class_ : string) (st : state)
    (item : nat) :
  item ∉ first_time st →
  let inline := get_style (page_of st) item in
  (inline ≠ "" →
     (λ st', get_style (page_of st') item) <$> visit_item style class_ st item
     = _merge_styles style inline class_) ∧
  (inline = "" →
     (λ st', get_style (page_of st') item) <$> visit_item style class_ st item
     = _merge_styles "" style class_) ∧
  (∀ st', visit_item style class_ st item = Ok st' →
     first_time_styles st' = first_time_styles st ++ [(item, inline)]) ∧
  (∀ rule_block inline_block : gmap string string,
     inline ≠ "" → class_ = "" →
     Regex.findall Regex.grouping_regex style = [] →
     parse_declarations style = Ok rule_block →
     parse_declarations inline = Ok inline_block →
     ∃ merged,
       (λ st', get_style (page_of st') item) <$> visit_item style class_ st item
       = Ok (format_block merged) ∧
       (∀ k v, inline_block !! k = Some v → merged !! k = Some v) ∧
       (∀ k v, inline_block !! k = None → rule_block !! k = Some v →
               merged !! k = Some v)).
Proof.
  intros Hnew inline. rewrite visit_item_style.
  unfold new_style_for. rewrite bool_decide_true by done. fold inline.
  split; [|split; [|split]].
  - intros Hi. by rewrite bool_decide_true.
  - intros Hi. rewrite bool_decide_false by (by intros ?). by rewrite Hi.
  - intros st' Hv. by apply (visit_item_snapshot style class_).
  - intros rule_block inline_block Hi -> Hflat Hr Hin.
    rewrite bool_decide_true by done.
    exists (inline_block ∪ rule_block).
    split; [by apply merge_styles_flat|]. split; intros k v.
    + intros Hk. by apply lookup_union_Some_l.
    + intros Hk Hv. by rewrite lookup_union_r.
Qed.

Lemma first_touch_merge_witness :
  let st := State {[ 0 := {[ "style" := "color:red" ]} ]} [] [] in
  (λ st', get_style (page_of st') 0)
    <$> @visit_item key_order "color:blue; margin-top:0" "" st 0
  = @_merge_styles key_order "color:blue; margin-top:0" "color:red" "".
Proof.
  intros st.
  apply (@first_touch_merge key_order "color:blue; margin-top:0" "" st 0).
  - vm_compute. by intros ?%elem_of_nil.
  - by vm_compute.
Defined.

(** C3, as stated, fails: on the first visit of an element with the inline
    style ["color:red"] by a rule with ["color:blue"], C3 computes
    the merge with [old] the inline style and [new] the rule, which is
    ["color:blue"]; the loop computes ["color:red"]. *)
Lemma first_touch_inline_wins :
  let st := State {[ 0 := {[ "style" := "color:red" ]} ]} [] [] in
  (λ st', get_style (page_of st') 0) <$> @visit_item key_order "color:blue" "" st 0
  = Ok "color:red" ∧
  (λ st', get_style (page_of st') 0) <$> @visit_item key_order "color:blue" "" st 0
  ≠ @_merge_styles key_order "color:red" "color:blue" "".
Proof. split; by vm_compute. Qed.

End TransformTheorems.

(** *** Running the loops under any iteration order *)

Section RunFacts.
Context `{DictOrder}.
Import Str StrFacts.

Lemma group_not_braces (g : string * gmap string string) (e : string * string) :
  map_to_list g.2 = [e] → ¬ (g.1 = "" ∧ g.2 = ∅).
Proof. intros Hg [_ E]. by rewrite E, map_to_list_empty in Hg. Qed.

(** A flat merge that leaves one declaration. *)
Lemma merge_styles_one_entry (old new : string) (news olds : gmap string string)
    (e : string * string) :
  Regex.findall Regex.grouping_regex old = [] →
  parse_declarations new = Ok news →
  parse_declarations old = Ok olds →
  map_to_list (news ∪ olds) = [e] →
  _merge_styles old new "" = Ok (e.1 +:+ ":" +:+ e.2).
Proof.
  intros Hflat Hn Ho He. rewrite (merge_styles_flat _ _ news olds) by done.
  destruct e as [k v]. by rewrite (format_block_one _ k v).
Qed.

(** A merge that leaves two groups of one declaration each. *)
Lemma merge_styles_two_groups (old new class_ : string)
    (news : gmap string string) (groups : gmap string (gmap string string))
    (g1 g2 : string * gmap string string) (e1 e2 : string * string) :
  parse_declarations new = Ok news →
  parse_old old = Ok groups →
  map_to_list (<[class_ := news ∪ default ∅ (groups !! class_)]> groups) ≡ₚ [g1; g2] →
  count ":" g1.1 < count ":" g2.1 →
  map_to_list g1.2 = [e1] → map_to_list g2.2 = [e2] →
  _merge_styles old new class_
  = Ok ((g1.1 +:+ "{" +:+ (e1.1 +:+ ":" +:+ e1.2) +:+ "}") +:+ " " +:+
        (g2.1 +:+ "{" +:+ (e2.1 +:+ ":" +:+ e2.2) +:+ "}")).
Proof.
  intros Hn Hg Hp Hlt H1 H2.
  rewrite (merge_styles_unfold _ _ _ news groups) by done.
  rewrite (serialize_two _ g1 g2) by done.
  change [format_group g1; format_group g2] with (map format_group [g1; g2]).
  rewrite filter_format_group.
  rewrite !filter_cons_True by eauto using group_not_braces.
  rewrite filter_nil. cbn [map].
  unfold format_group. destruct e1 as [k1 v1], e2 as [k2 v2].
  by rewrite (format_block_one _ k1 v1), (format_block_one _ k2 v2).
Qed.

(** The merge of one declaration into the empty style under a class: the
    empty unconditional group is left out. *)
Lemma merge_styles_class_only (new class_ : string) (news : gmap string string)
    (e : string * string) :
  0 < count ":" class_ →
  parse_declarations new = Ok news →
  map_to_list news = [e] →
  _merge_styles "" new class_ = Ok (class_ +:+ "{" +:+ (e.1 +:+ ":" +:+ e.2) +:+ "}").
Proof.
  intros Hc Hn He.
  assert (class_ ≠ "") as Hne by (intros ->; cbn in Hc; lia).
  rewrite (merge_styles_unfold _ _ _ news {[ "" := ∅ ]}); [|done..].
  rewrite lookup_singleton_ne by done. cbn [default from_option id].
  rewrite (right_id_L ∅ (∪)).
  rewrite (serialize_two _ ("", ∅) (class_, news)).
  - change [format_group ("", ∅); format_group (class_, news)]
      with (map format_group [("", ∅); (class_, news)]).
    rewrite filter_format_group.
    rewrite filter_cons_False by (by intros []).
    rewrite filter_cons_True by (by eapply group_not_braces).
    rewrite filter_nil. cbn [map]. unfold format_group. cbn [fst snd].
    destruct e as [k v]. by rewrite (format_block_one _ k v).
  - rewrite insert_singleton_ne by done.
    rewrite map_to_list_insert by (by rewrite lookup_singleton_ne).
    by rewrite map_to_list_singleton, Permutation_swap.
  - cbn. lia.
Qed.

Lemma set_style_force (page : gmap nat (gmap string string)) (item : nat)
    (new_style : string) :
  set_style page item new_style
  = <[item := basic_attributes new_style
              ∪ <["style" := new_style]> (attrib page item)]> page.
Proof. unfold set_style. by rewrite style_to_basic_html_attributes_force. Qed.

Lemma apply_rule_unfold (query : string → gmap nat (gmap string string) → list nat)
    (st : state) (selector style sel class_ : string) :
  split_selector selector = (sel, class_) →
  apply_rule query st (selector, style)
  = st' ← visit_items style class_ st (query sel (page_of st)); mret (st', class_).
Proof. unfold apply_rule. by intros ->. Qed.

Lemma visit_item_first (style class_ : string) (st : state) (item : nat)
    (new_style : string) :
  item ∉ first_time st →
  (if bool_decide (get_style (page_of st) item ≠ "")
   then _merge_styles style (get_style (page_of st) item) class_
   else _merge_styles (get_style (page_of st) item) style class_) = Ok new_style →
  visit_item style class_ st item
  = Ok {| page_of := set_style (page_of st) item new_style;
          first_time := first_time st ++ [item];
          first_time_styles :=
            first_time_styles st ++ [(item, get_style (page_of st) item)] |}.
Proof.
  intros Hnew Hm. unfold visit_item, new_style_for.
  rewrite !bool_decide_true by done. by rewrite Hm.
Qed.

Lemma visit_item_again (style class_ : string) (st : state) (item : nat)
    (new_style : string) :
  item ∈ first_time st →
  _merge_styles (get_style (page_of st) item) style class_ = Ok new_style →
  visit_item style class_ st item
  = Ok {| page_of := set_style (page_of st) item new_style;
          first_time := first_time st;
          first_time_styles := first_time_styles st |}.
Proof.
  intros Hold Hm. unfold visit_item, new_style_for.
  rewrite !bool_decide_false by (by intros ?). by rewrite Hm.
Qed.

Lemma restore_item_inline (class_ : string) (page : gmap nat (gmap string string))
    (item : nat) (inline_style new_style : string) :
  inline_style ≠ "" →
  _merge_styles (get_style page item) inline_style class_ = Ok new_style →
  restore_item (Some class_) page (item, inline_style)
  = Ok (set_style page item new_style).
Proof.
  intros Hi Hm. unfold restore_item. rewrite bool_decide_false by done.
  cbn. by rewrite Hm.
Qed.

End RunFacts.

Ltac solve_side := vm_compute; first [reflexivity | apply Permutation_swap | lia].
Ltac pure_eq t v := assert (t = v) as -> by (vm_compute; reflexivity).
Ltac solve_notin :=
  cbn [first_time]; intros Hin;
  repeat (apply elem_of_cons in Hin as [Hin|Hin]; [done|]);
  by apply elem_of_nil in Hin.
Ltac run :=
  cbn [mbind result_bind mret result_ret fst snd page_of first_time
       first_time_styles app apply_rules visit_items restore_items].

Section RestorationTheorems.
Context `{DictOrder}.
Import Str StrFacts.

(** The merge of an inline style into a flat accumulated style under a
    class that is not empty leaves the unconditional group as it was: the
    inline declarations all go to the group of the class. *)
Lemma merge_styles_under_class (old_style inline_style class_ : string)
    (olds news : gmap string string) :
  class_ ≠ "" →
  Regex.findall Regex.grouping_regex old_style = [] →
  parse_declarations old_style = Ok olds →
  parse_declarations inline_style = Ok news →
  _merge_styles old_style inline_style class_
  = serialize (<[class_ := news]> {[ "" := olds ]}).
Proof.
  intros Hc Hflat Ho Hn.
  rewrite (merge_styles_unfold _ _ _ news {[ "" := olds ]}); [|done|].
  - rewrite lookup_singleton_ne by done. cbn. by rewrite (right_id_L ∅ (∪)).
  - by rewrite parse_old_flat, Ho.
Qed.

(** The example of C6: the inline [color:red] is there at the end. *)
Lemma inline_style_restored_example :
  transform example_query default_premailer ["p{color:blue}"]
    (example_page "color:red")
  = Ok (example_page "color:red").
Proof.
  unfold transform.
  pure_eq (flat_map (λ css_body, (_parse_style_rules default_premailer css_body).1)
            ["p{color:blue}"]) [("p", "color:blue")].
  pure_eq (_split_spacing_properties [("p", "color:blue")]) (Ok [("p", "color:blue")]).
  run.
  rewrite (apply_rule_unfold _ _ "p" "color:blue" "p" "") by solve_side.
  change (example_query "p" ?p) with [0]. run.
  rewrite (visit_item_first _ _ _ 0 "color:red"); [|solve_notin|].
  2: { run. pure_eq (get_style (example_page "color:red") 0) "color:red".
       rewrite bool_decide_true by done.
       by rewrite (merge_styles_one_entry "color:blue" "color:red"
                     {[ "color" := "red" ]} {[ "color" := "blue" ]} ("color", "red"))
         by solve_side. }
  run.
  pure_eq (get_style (example_page "color:red") 0) "color:red".
  assert (set_style (example_page "color:red") 0 "color:red"
          = example_page "color:red") as Hset
    by (rewrite set_style_force; vm_compute; reflexivity).
  rewrite Hset.
  rewrite (restore_item_inline "" _ 0 "color:red" "color:red"); [|done|].
  2: { pure_eq (get_style (example_page "color:red") 0) "color:red".
       by rewrite (merge_styles_one_entry "color:red" "color:red"
                     {[ "color" := "red" ]} {[ "color" := "red" ]} ("color", "red"))
         by solve_side. }
  run. by rewrite Hset.
Qed.

Lemma restoration_after_unrelated_hover_rule :
  transform example_query default_premailer
    ["p{color:blue} p{color:green} a:hover{color:black}"]
    (example_page "color:red")
  = Ok {[ 0 := {[ "style" := "{color:green} :hover{color:red}" ]};
          1 := {[ "style" := ":hover{color:black}" ]} ]}.
Proof.
  set (pageB := {[ 0 := {[ "style" := "color:green" ]}; 1 := ∅ ]}
                : gmap nat (gmap string string)).
  set (pageC := {[ 0 := {[ "style" := "color:green" ]};
                   1 := {[ "style" := ":hover{color:black}" ]} ]}
                : gmap nat (gmap string string)).
  unfold transform.
  pure_eq (flat_map (λ css_body, (_parse_style_rules default_premailer css_body).1)
            ["p{color:blue} p{color:green} a:hover{color:black}"])
          [("p", "color:blue"); ("p", "color:green"); ("a:hover", "color:black")].
  pure_eq (_split_spacing_properties
             [("p", "color:blue"); ("p", "color:green"); ("a:hover", "color:black")])
          (Ok [("p", "color:blue"); ("p", "color:green"); ("a:hover", "color:black")]).
  run.
  (* p{color:blue}: the first visit of the p element *)
  rewrite (apply_rule_unfold _ _ "p" "color:blue" "p" "") by solve_side.
  change (example_query "p" ?p) with [0]. run.
  rewrite (visit_item_first _ _ _ 0 "color:red"); [|solve_notin|].
  2: { run. pure_eq (get_style (example_page "color:red") 0) "color:red".
       rewrite bool_decide_true by done.
       by rewrite (merge_styles_one_entry "color:blue" "color:red"
                     {[ "color" := "red" ]} {[ "color" := "blue" ]} ("color", "red"))
         by solve_side. }
  run.
  pure_eq (get_style (example_page "color:red") 0) "color:red".
  assert (set_style (example_page "color:red") 0 "color:red"
          = example_page "color:red") as ->
    by (rewrite set_style_force; vm_compute; reflexivity).
  (* p{color:green}: a later visit *)
  rewrite (apply_rule_unfold _ _ "p" "color:green" "p" "") by solve_side.
  change (example_query "p" ?p) with [0]. run.
  rewrite (visit_item_again _ _ _ 0 "color:green"); [|by left|].
  2: { run. pure_eq (get_style (example_page "color:red") 0) "color:red".
       by rewrite (merge_styles_one_entry "color:red" "color:green"
                     {[ "color" := "green" ]} {[ "color" := "red" ]} ("color", "green"))
         by solve_side. }
  run.
  assert (set_style (example_page "color:red") 0 "color:green" = pageB) as ->
    by (rewrite set_style_force; vm_compute; reflexivity).
  (* a:hover{color:black}: the first visit of the a element *)
  rewrite (apply_rule_unfold _ _ "a:hover" "color:black" "a" ":hover") by solve_side.
  change (example_query "a" ?p) with [1]. run.
  rewrite (visit_item_first _ _ _ 1 ":hover{color:black}"); [|solve_notin|].
  2: { run. pure_eq (get_style pageB 1) "".
       rewrite bool_decide_false by (by intros ?).
       by rewrite (merge_styles_class_only "color:black" ":hover"
                     {[ "color" := "black" ]} ("color", "black")) by solve_side. }
  run.
  pure_eq (get_style pageB 1) "".
  assert (set_style pageB 1 ":hover{color:black}" = pageC) as ->
    by (rewrite set_style_force; vm_compute; reflexivity).
  (* the final pass, under the class of the last rule *)
  rewrite (restore_item_inline ":hover" pageC 0 "color:red"
             "{color:green} :hover{color:red}"); [|done|].
  2: { pure_eq (get_style pageC 0) "color:green".
       by rewrite (merge_styles_two_groups "color:green" "color:red" ":hover"
                     {[ "color" := "red" ]} {[ "" := {[ "color" := "green" ]} ]}
                     ("", {[ "color" := "green" ]}) (":hover", {[ "color" := "red" ]})
                     ("color", "green") ("color", "red")) by solve_side. }
  run. unfold restore_item. rewrite bool_decide_true by done. run.
  f_equal. rewrite set_style_force. vm_compute. reflexivity.
Qed.

Lemma restoration_after_hover_rule :
  transform example_query default_premailer ["p:hover{color:blue}"]
    (example_page "color:red")
  = Ok {[ 0 := {[ "style" := "{color:blue} :hover{color:red}" ]}; 1 := ∅ ]}.
Proof.
  set (page1 := {[ 0 := {[ "style" := "{color:blue} :hover{color:red}" ]}; 1 := ∅ ]}
                : gmap nat (gmap string string)).
  unfold transform.
  pure_eq (flat_map (λ css_body, (_parse_style_rules default_premailer css_body).1)
            ["p:hover{color:blue}"]) [("p:hover", "color:blue")].
  pure_eq (_split_spacing_properties [("p:hover", "color:blue")])
          (Ok [("p:hover", "color:blue")]).
  run.
  rewrite (apply_rule_unfold _ _ "p:hover" "color:blue" "p" ":hover") by solve_side.
  change (example_query "p" ?p) with [0]. run.
  rewrite (visit_item_first _ _ _ 0 "{color:blue} :hover{color:red}"); [|solve_notin|].
  2: { run. pure_eq (get_style (example_page "color:red") 0) "color:red".
       rewrite bool_decide_true by done.
       by rewrite (merge_styles_two_groups "color:blue" "color:red" ":hover"
                     {[ "color" := "red" ]} {[ "" := {[ "color" := "blue" ]} ]}
                     ("", {[ "color" := "blue" ]}) (":hover", {[ "color" := "red" ]})
                     ("color", "blue") ("color", "red")) by solve_side. }
  run.
  pure_eq (get_style (example_page "color:red") 0) "color:red".
  assert (set_style (example_page "color:red") 0 "{color:blue} :hover{color:red}"
          = page1) as Hset
    by (rewrite set_style_force; vm_compute; reflexivity).
  rewrite Hset.
  rewrite (restore_item_inline ":hover" page1 0 "color:red"
             "{color:blue} :hover{color:red}"); [|done|].
  2: { pure_eq (get_style page1 0) "{color:blue} :hover{color:red}".
       by rewrite (merge_styles_two_groups "{color:blue} :hover{color:red}"
                     "color:red" ":hover" {[ "color" := "red" ]}
                     {[ "" := {[ "color" := "blue" ]}; ":hover" := {[ "color" := "red" ]} ]}
                     ("", {[ "color" := "blue" ]}) (":hover", {[ "color" := "red" ]})
                     ("color", "blue") ("color", "red")) by solve_side. }
  run. f_equal. rewrite set_style_force. vm_compute. reflexivity.
Qed.

(** C6 fails on the code.  The final pass merges the inline style under the
    [class_] that the last rule left behind.  With the rules [p{color:blue}],
    [p{color:green}] and [a:hover{color:black}] the inline [color:red] of the
    [p] element ends in the [:hover] group and the unconditional group keeps
    the [color:green] of the stylesheet; with the single rule
    [p:hover{color:blue}] the unconditional group ends with [color:blue].
    This is so under every iteration order of the dicts. *)
Theorem restoration_merges_under_last_class :
  transform example_query default_premailer
    ["p{color:blue} p{color:green} a:hover{color:black}"]
    (example_page "color:red")
  = Ok {[ 0 := {[ "style" := "{color:green} :hover{color:red}" ]};
          1 := {[ "style" := ":hover{color:black}" ]} ]} ∧
  transform example_query default_premailer ["p:hover{color:blue}"]
    (example_page "color:red")
  = Ok {[ 0 := {[ "style" := "{color:blue} :hover{color:red}" ]}; 1 := ∅ ]}.
Proof.
  split; [apply restoration_after_unrelated_hover_rule
         |apply restoration_after_hover_rule].
Qed.

End RestorationTheorems.

(** ** Filter pseudo-selectors *)

Section FilterFacts.
Import Str StrFacts.

Lemma split1_mem (c : ascii) (s : string) :
  mem c s = true → ∃ a b, split1 c s = [a; b].
Proof.
  induction s as [|x s IH]; [done|]. cbn.
  destruct (Ascii.eqb x c); cbn; [eauto|].
  intros (a & b & ->)%IH. eauto.
Qed.

(** The suffix that is looked up starts with a colon, so the entry
    ["nth-child"] of [FILTER_PSEUDOSELECTORS] is never found. *)
Lemma pseudo_suffix_filter (selector : string) :
  pseudo_suffix selector ∈ FILTER_PSEUDOSELECTORS ↔
  pseudo_suffix selector = ":last-child" ∨ pseudo_suffix selector = ":first-child".
Proof.
  unfold FILTER_PSEUDOSELECTORS. rewrite !elem_of_cons, elem_of_nil.
  unfold pseudo_suffix. split; [|tauto].
  intros [?|[?|[?|[]]]]; auto. discriminate.
Qed.

Lemma classify_selector_leftover (self : Premailer) (bulk selector : string)
    (acc : list rule * list rule) (r : rule) :
  r ∈ (classify_selector self bulk acc selector).2 →
  r ∈ acc.2 ∨ (r.1 = selector ∧ pseudo_suffix selector ∉ FILTER_PSEUDOSELECTORS).
Proof.
  destruct acc as [rules leftover]. unfold classify_selector.
  destruct (mem ":" selector && exclude_pseudoclasses self &&
            bool_decide (pseudo_suffix selector ∉ FILTER_PSEUDOSELECTORS)) eqn:E.
  - cbn. rewrite elem_of_app, list_elem_of_singleton. intros [?|Hr]; [by left|].
    subst r. right. split; [done|].
    apply andb_true_iff in E as [_ E]. by apply bool_decide_eq_true in E.
  - destruct (bool_decide (selector = "*") && negb (include_star_selectors self));
      cbn; auto.
Qed.

(** No selector whose suffix is [:first-child] or [:last-child] is put in
    [leftover]. *)
Lemma parse_style_rules_leftover (self : Premailer) (css_body : string) (r : rule) :
  r ∈ (_parse_style_rules self css_body).2 →
  pseudo_suffix r.1 ∉ FILTER_PSEUDOSELECTORS.
Proof.
  unfold _parse_style_rules.
  generalize (Regex.findall Regex._regex
                (strip (Regex.sub Regex._css_comments "" css_body))).
  intros blocks.
  assert (∀ acc : list rule * list rule,
    (∀ r, r ∈ acc.2 → pseudo_suffix r.1 ∉ FILTER_PSEUDOSELECTORS) →
    ∀ r, r ∈ (foldl (parse_block self) acc blocks).2 →
         pseudo_suffix r.1 ∉ FILTER_PSEUDOSELECTORS) as Hblocks.
  { induction blocks as [|[[whole selectors] bulk] blocks IH]; intros acc Hacc; [done|].
    cbn [foldl]. apply IH. unfold parse_block.
    generalize (selector_list selectors) (normalize_bulk bulk). intros l b.
    revert acc Hacc. induction l as [|selector l IHl]; intros acc Hacc; [done|].
    cbn [foldl]. apply IHl. intros r' Hr'.
    apply classify_selector_leftover in Hr' as [Hr'|[Hs Hr']]; [auto|].
    by rewrite Hs. }
  apply Hblocks. cbn. intros r' Hr'. by apply elem_of_nil in Hr'.
Qed.

(** A selector whose suffix is [:first-child] or [:last-child] is queried
    whole, and its declarations are merged under the empty key. *)
Lemma split_selector_filter (selector : string) :
  mem ":" selector = true →
  pseudo_suffix selector ∈ FILTER_PSEUDOSELECTORS →
  split_selector selector = (selector, "").
Proof.
  intros Hm Hs. unfold split_selector. rewrite Hm.
  destruct (split1_mem ":" selector Hm) as (a & b & E).
  unfold pseudo_suffix in Hs. rewrite E in *. cbn [nth] in Hs.
  by rewrite bool_decide_true.
Qed.

(** C4 fails on the code for [nth-child]: its entry in
    [FILTER_PSEUDOSELECTORS] has no colon while the text that is looked up
    always starts with one, so the entry is never found.  With pseudo-class
    exclusion the selector [li:nth-child(2)] is put in [leftover], and in the
    rule loop it is cut into the selector [li] and the class
    [:nth-child(2)]; the same holds of the bare [li:nth-child]. *)
Theorem nth_child_is_not_filtered :
  _parse_style_rules {| exclude_pseudoclasses := true; include_star_selectors := false |}
    "li:nth-child(2){color:red}"
  = ([], [("li:nth-child(2)", "color:red")]) ∧
  split_selector "li:nth-child(2)" = ("li", ":nth-child(2)") ∧
  _parse_style_rules {| exclude_pseudoclasses := true; include_star_selectors := false |}
    "li:nth-child{color:red}"
  = ([], [("li:nth-child", "color:red")]) ∧
  split_selector "li:nth-child" = ("li", ":nth-child").
Proof. repeat split; vm_compute; reflexivity. Qed.

(** The two other filter pseudo-selectors are dealt with as C4 says. *)
Lemma first_child_is_filtered :
  _parse_style_rules {| exclude_pseudoclasses := true; include_star_selectors := false |}
    "li:first-child{color:red} li:last-child{color:blue}"
  = ([("li:first-child", "color:red"); ("li:last-child", "color:blue")], []) ∧
  split_selector "li:first-child" = ("li:first-child", "") ∧
  split_selector "li:last-child" = ("li:last-child", "").
Proof. repeat split; vm_compute; reflexivity. Qed.

End FilterFacts.

(** ** Attribute projection *)

Section MapperTheorems.
Import Str StrFacts.

Lemma split_app_sep (c : ascii) (s t : string) :
  mem c s = false → split c (s +:+ String c t) = s :: split c t.
Proof.
  induction s as [|a s IH]; cbn -[String.append].
  - intros _. change ("" +:+ ?x) with x. cbn. by rewrite Ascii.eqb_refl.
  - rewrite app_cons. cbn -[String.append].
    destruct (Ascii.eqb a c); [done|]. cbn. intros Hm. by rewrite IH.
Qed.

Lemma count_app (c : ascii) (s t : string) :
  count c (s +:+ t) = count c s + count c t.
Proof.
  induction s as [|a s IH]; [done|]. rewrite app_cons. cbn. rewrite IH. lia.
Qed.

(** On a grouped text that starts with the unconditional group, the
    declarations that are projected are those of that group. *)
Lemma unconditional_text_grouped (body rest : string) :
  mem "}" body = false →
  unconditional_text ("{" +:+ body +:+ "}" +:+ rest) = body.
Proof.
  intros Hb. unfold unconditional_text.
  assert ((0 <? count "}" ("{" +:+ body +:+ "}" +:+ rest)) = true) as ->.
  { apply Nat.ltb_lt. rewrite !count_app. cbn. lia. }
  rewrite Nat.eqb_refl. cbn [andb].
  change ("{" +:+ body +:+ "}" +:+ rest) with (String "{" (body +:+ String "}" rest)).
  cbn [split]. change (Ascii.eqb "{" "}") with false. cbn match.
  by rewrite split_app_sep.
Qed.

(** The example of C9, under every iteration order. *)
Lemma attribute_projection_example `{DictOrder} (element : gmap string string) :
  _style_to_basic_html_attributes element "background-color:#fff; width:100px" true
  = <["bgcolor" := "#fff"]> (<["width" := "100"]> element).
Proof.
  rewrite style_to_basic_html_attributes_force.
  assert (basic_attributes "background-color:#fff; width:100px"
          = <["bgcolor" := "#fff"]> (<["width" := "100"]> ∅)) as ->
    by (vm_compute; reflexivity).
  by rewrite <- !insert_union_l, (left_id_L ∅ (∪)).
Qed.

(** The text of a lone [:hover] group, in either order of its two
    declarations: the second declaration is projected. *)
Lemma hover_text_projection `{DictOrder} :
  _style_to_basic_html_attributes ∅ ":hover{height:5px; width:10px}" true
  = {[ "width" := "10" ]} ∧
  _style_to_basic_html_attributes ∅ ":hover{width:10px; height:5px}" true
  = {[ "height" := "5" ]}.
Proof.
  split; rewrite style_to_basic_html_attributes_force, (right_id_L ∅ (∪));
    vm_compute; reflexivity.
Qed.

(** C9 fails on the code when the style text starts with a pseudo-class
    group, which is what [_merge_styles] returns for an element whose
    unconditional group is empty: the text up to the first ['}'] less one
    character is then the inside of the pseudo-class group, and every
    declaration of that group but the first is projected.  Under every
    iteration order, the style that the rule [a:hover{height:5px;width:10px}]
    gives to an element without inline style sets [width] or [height] on
    the element. *)
Theorem hover_group_is_projected `{DictOrder} :
  ∃ s, _merge_styles "" "height:5px;width:10px" ":hover" = Ok s ∧
       (s = ":hover{height:5px; width:10px}" ∨ s = ":hover{width:10px; height:5px}") ∧
       (_style_to_basic_html_attributes ∅ s true = {[ "width" := "10" ]} ∨
        _style_to_basic_html_attributes ∅ s true = {[ "height" := "5" ]}).
Proof.
  pose (news := <["width" := "10px"]> (<["height" := "5px"]> ∅) : gmap string string).
  rewrite (merge_styles_unfold _ _ _ news {[ "" := ∅ ]})
    by (vm_compute; reflexivity).
  rewrite (serialize_two _ ("", ∅) (":hover", news));
    [|vm_compute; apply Permutation_swap|vm_compute; lia].
  unfold format_group. cbn [fst snd]. rewrite format_block_empty.
  destruct hover_text_projection as [Hw Hh].
  destruct (format_block_two news ("width", "10px") ("height", "5px"))
    as [-> | ->]; [vm_compute; reflexivity|..].
  - exists ":hover{width:10px; height:5px}".
    split; [vm_compute; reflexivity|]. split; [by right|by right].
  - exists ":hover{height:5px; width:10px}".
    split; [vm_compute; reflexivity|]. split; [by left|by left].
Qed.

End MapperTheorems.

(** ** The text returned by a flat merge is a declaration block

    The text that [_merge_styles] renders from a block is parsed back to the
    same block by [parse_declarations]. *)

Section StripFacts.
Import Str StrFacts.

Lemma lstrip_idem (s : string) : lstrip (lstrip s) = lstrip s.
Proof.
  induction s as [|a s IH]; [done|]. cbn.
  destruct (is_space a) eqn:Ha; [done|]. cbn. by rewrite Ha.
Qed.

Lemma rstrip_idem (s : string) : rstrip (rstrip s) = rstrip s.
Proof.
  induction s as [|a s IH]; [done|]. cbn.
  destruct (rstrip s) as [|b r] eqn:Hr.
  - destruct (is_space a) eqn:Ha; [done|]. cbn. by rewrite Ha.
  - cbn [rstrip] in *. by rewrite IH.
Qed.

Lemma lstrip_rstrip (s : string) : lstrip s = s → lstrip (rstrip s) = rstrip s.
Proof.
  destruct s as [|a s]; [done|]. cbn.
  destruct (is_space a) eqn:Ha.
  - intros E. exfalso.
    assert (String.length (lstrip s) ≤ String.length s) as Hl.
    { clear. induction s as [|b s IH]; cbn; [lia|].
      destruct (is_space b); cbn; lia. }
    rewrite E in Hl. cbn in Hl. lia.
  - intros _. destruct (rstrip s); cbn; by rewrite Ha.
Qed.

Lemma strip_stripped (s : string) :
  lstrip (strip s) = strip s ∧ rstrip (strip s) = strip s.
Proof.
  unfold strip. split; [|apply rstrip_idem].
  apply lstrip_rstrip, lstrip_idem.
Qed.

Lemma strip_id (s : string) : lstrip s = s → rstrip s = s → strip s = s.
Proof. unfold strip. by intros -> ->. Qed.

Lemma mem_app (c : ascii) (s t : string) :
  mem c (s +:+ t) = mem c s || mem c t.
Proof.
  induction s as [|a s IH]; [done|]. rewrite app_cons. cbn.
  rewrite IH. by rewrite orb_assoc.
Qed.

Lemma mem_lstrip (c : ascii) (s : string) : mem c s = false → mem c (lstrip s) = false.
Proof.
  induction s as [|a s IH]; [done|]. cbn.
  intros [Ha Hs]%orb_false_iff. destruct (is_space a); [auto|].
  cbn. by rewrite Ha, Hs.
Qed.

Lemma mem_rstrip (c : ascii) (s : string) : mem c s = false → mem c (rstrip s) = false.
Proof.
  induction s as [|a s IH]; [done|]. cbn.
  intros [Ha Hs]%orb_false_iff. specialize (IH Hs).
  destruct (rstrip s) as [|b r].
  - destruct (is_space a); [done|]. cbn. by rewrite Ha.
  - cbn [mem] in *. by rewrite Ha, IH.
Qed.

Lemma mem_strip (c : ascii) (s : string) : mem c s = false → mem c (strip s) = false.
Proof. intros Hs. by apply mem_rstrip, mem_lstrip. Qed.

Lemma split_no_sep (c : ascii) (s : string) : mem c s = false → split c s = [s].
Proof.
  induction s as [|a s IH]; [done|]. cbn.
  intros [Ha Hs]%orb_false_iff. by rewrite Ha, IH.
Qed.

Lemma split_mem (c : ascii) (s x : string) : x ∈ split c s → mem c x = false.
Proof.
  revert x. induction s as [|a s IH]; intros x; cbn.
  - by intros ->%list_elem_of_singleton.
  - destruct (Ascii.eqb a c) eqn:Ha.
    + intros [->|Hx]%elem_of_cons; [done|auto].
    + pose proof (split_not_nil c s) as Hn.
      destruct (split c s) as [|w ws]; [done|].
      intros [->|Hx]%elem_of_cons.
      * cbn. rewrite Ha. apply IH. by left.
      * apply IH. by right.
Qed.

Lemma split1_inv (c : ascii) (s k v : string) :
  split1 c s = [k; v] → s = k +:+ String c v ∧ mem c k = false.
Proof.
  revert k. induction s as [|a s IH]; intros k; [done|]. cbn.
  destruct (Ascii.eqb_spec a c) as [->|Hne].
  - by intros [= <- <-].
  - destruct (split1 c s) as [|w [|w' [|]]] eqn:Hs; try done.
    intros [= <- <-]. destruct (IH w eq_refl) as [-> Hw].
    split; [done|]. cbn. rewrite Hw.
    by destruct (Ascii.eqb_spec a c).
Qed.

Lemma split1_app (c : ascii) (k v : string) :
  mem c k = false → split1 c (k +:+ String c v) = [k; v].
Proof.
  induction k as [|a k IH]; cbn -[String.append].
  - intros _. change ("" +:+ ?x) with x. cbn. by rewrite Ascii.eqb_refl.
  - intros [Ha Hk]%orb_false_iff. rewrite app_cons. cbn -[String.append].
    by rewrite Ha, IH.
Qed.

Lemma lstrip_app (s t : string) :
  lstrip s = s → s ≠ "" → lstrip (s +:+ t) = s +:+ t.
Proof.
  destruct s as [|a s]; [done|]. intros E _. rewrite app_cons. cbn in *.
  destruct (is_space a) eqn:Ha; [|done]. exfalso.
  assert (String.length (lstrip s) ≤ String.length s) as Hl.
  { clear. induction s as [|b s IH]; cbn; [lia|].
    destruct (is_space b); cbn; lia. }
  rewrite E in Hl. cbn in Hl. lia.
Qed.

Lemma rstrip_app (s t : string) :
  rstrip t ≠ "" → rstrip (s +:+ t) = s +:+ rstrip t.
Proof.
  intros Ht. induction s as [|a s IH]; [done|]. rewrite !app_cons. cbn.
  rewrite IH. by destruct (s +:+ rstrip t) eqn:E; [apply app_eq_nil in E as [_ ?]|].
Qed.

End StripFacts.

Section RoundTrip.
Context `{DictOrder}.
Import Str StrFacts.

Lemma parse_declaration_clean (x k v : string) :
  mem ";" x = false → parse_declaration x = Ok (k, v) → clean_entry k v.
Proof.
  intros Hx. unfold parse_declaration.
  destruct (split1 ":" (strip x)) as [|k0 [|v0 [|]]] eqn:Hs; try done.
  intros [= <- <-]. apply split1_inv in Hs as [Hs Hk0].
  assert (mem ";" (strip x) = false) as Hm by by apply mem_strip.
  rewrite Hs, mem_app in Hm. apply orb_false_iff in Hm as [Hmk Hmv].
  cbn in Hmv.
  destruct (strip_stripped k0) as [? ?], (strip_stripped v0) as [? ?].
  repeat split; auto using mem_strip.
Qed.

Lemma parse_into_clean (d d' : gmap string string) (xs : list string) :
  Forall (λ x, mem ";" x = false) xs → clean_block d →
  parse_into d xs = Ok d' → clean_block d'.
Proof.
  intros Hxs. revert d. induction Hxs as [|x xs Hx _ IH]; intros d Hd.
  - by intros [= <-].
  - cbn [parse_into].
    destruct (parse_declaration x) as [[k v]|] eqn:Hp; [|done]. cbn.
    apply IH. intros k' v'. destruct (decide (k = k')) as [<-|Hne].
    + rewrite lookup_insert_eq. intros [= <-]. by eapply parse_declaration_clean.
    + rewrite lookup_insert_ne by done. apply Hd.
Qed.

(** What [parse_declarations] returns is clean. *)
Lemma parse_declarations_clean (text : string) (d : gmap string string) :
  parse_declarations text = Ok d → clean_block d.
Proof.
  unfold parse_declarations. apply parse_into_clean; [|by intros k v].
  apply Forall_forall. intros x [_ Hx]%list_elem_of_filter.
  by eapply split_mem.
Qed.

Lemma clean_block_union (d1 d2 : gmap string string) :
  clean_block d1 → clean_block d2 → clean_block (d1 ∪ d2).
Proof.
  intros H1 H2 k v [?|[_ ?]]%lookup_union_Some_raw; [by apply H1|by apply H2].
Qed.

Lemma strip_declaration (k v : string) :
  clean_entry k v → strip (k +:+ ":" +:+ v) = k +:+ ":" +:+ v.
Proof.
  intros (Hlk & Hrk & _ & _ & Hlv & Hrv & _).
  assert (rstrip (":" +:+ v) = ":" +:+ v) as Hr.
  { change (":" +:+ v) with (String ":" v). cbn. rewrite Hrv. by destruct v. }
  apply strip_id.
  - destruct k as [|a k]; [done|]. by apply lstrip_app.
  - rewrite rstrip_app; rewrite Hr; done.
Qed.

Lemma parse_declaration_format (k v : string) :
  clean_entry k v → parse_declaration (k +:+ ":" +:+ v) = Ok (k, v).
Proof.
  intros Hc. unfold parse_declaration. rewrite strip_declaration by done.
  destruct Hc as (Hlk & Hrk & Hk & _ & Hlv & Hrv & _).
  change (k +:+ ":" +:+ v) with (k +:+ String ":" v).
  rewrite split1_app by done. by rewrite !strip_id.
Qed.

Lemma strip_leading_space (s : string) : strip (String " " s) = strip s.
Proof. done. Qed.

Lemma split_join_semicolon (x : string) (l : list string) :
  Forall (λ y, mem ";" y = false) (x :: l) →
  split ";" (join "; " (x :: l)) = x :: map (String " ") l.
Proof.
  revert x. induction l as [|y l IH]; intros x Hall.
  - inversion_clear Hall. by apply split_no_sep.
  - inversion_clear Hall as [|?? Hx Hl]. rewrite join_cons.
    change (x +:+ "; " +:+ ?t) with (x +:+ String ";" (String " " t)).
    rewrite split_app_sep by done. cbn [split].
    change (Ascii.eqb " " ";") with false. cbn match.
    by rewrite IH.
Qed.

Lemma parse_into_format (d : gmap string string) (kvs : list (string * string))
    (xs : list string) :
  Forall2 (λ x kv, parse_declaration x = Ok kv) xs kvs →
  parse_into d xs = Ok (foldl (λ a kv, <[kv.1 := kv.2]> a) d kvs).
Proof.
  intros Hall. revert d. induction Hall as [|x [k v] xs kvs Hx _ IH]; intros d; [done|].
  cbn [parse_into foldl]. rewrite Hx. cbn. apply IH.
Qed.

(** Parsing the rendering of a clean block gives the block back. *)
Lemma parse_format_block (d : gmap string string) :
  clean_block d → parse_declarations (format_block d) = Ok d.
Proof.
  intros Hd. unfold parse_declarations, format_block.
  assert (Forall (λ kv, clean_entry kv.1 kv.2) (items d)) as Hitems.
  { apply Forall_forall. intros [k v] Hkv. by apply Hd, items_lookup. }
  assert (NoDup (items d).*1) as Hnd.
  { rewrite items_perm. apply NoDup_fst_map_to_list. }
  rewrite <- (list_to_map_items d) at 2.
  rewrite <- (right_id_L ∅ (∪) (list_to_map (items d))).
  rewrite <- foldl_insert_union by done.
  destruct (items d) as [|[k v] l] eqn:El; [done|].
  rewrite <- El in *. rewrite El at 1. cbn [map fst snd].
  rewrite split_join_semicolon.
  - rewrite El. apply parse_into_format.
    rewrite El in Hitems. clear El Hnd.
    assert (∀ kv : string * string, clean_entry kv.1 kv.2 →
              strip (kv.1 +:+ ":" +:+ kv.2) ≠ "") as Hne.
    { intros kv Hc. rewrite strip_declaration by done. by destruct (kv.1). }
    inversion_clear Hitems as [|?? Hkv Hl].
    rewrite filter_cons_True by (by apply (Hne (k, v))).
    constructor; [by apply parse_declaration_format|].
    induction Hl as [|[k' v'] l Hkv' _ IHl]; [constructor|].
    cbn [map fst snd]. rewrite filter_cons_True.
    + constructor; [|done]. unfold parse_declaration.
      rewrite strip_leading_space. by apply parse_declaration_format.
    + rewrite strip_leading_space. by apply (Hne (k', v')).
  - rewrite El in Hitems. clear El Hnd.
    change ((k +:+ ":" +:+ v) :: map (λ kv, kv.1 +:+ ":" +:+ kv.2) l)
      with (map (λ kv : string * string, kv.1 +:+ ":" +:+ kv.2) ((k, v) :: l)).
    apply Forall_fmap. eapply Forall_impl; [exact Hitems|].
    intros [k' v'] (_ & _ & _ & Hk' & _ & _ & Hv'). cbn [fst snd] in *.
    unfold compose. cbn [fst snd]. by rewrite !mem_app, Hk', Hv'.
Qed.

End RoundTrip.

(** ** Precedence in the merge of flat texts *)

Section MergeTheorems.
Import Str StrFacts.

(** The merge of flat texts under the empty key. *)
Lemma merge_styles_precedence `{DictOrder} (old new : string)
    (news olds : gmap string string) :
  Regex.findall Regex.grouping_regex old = [] →
  parse_declarations new = Ok news →
  parse_declarations old = Ok olds →
  ∃ merged entries,
    _merge_styles old new ""
    = Ok (join "; " (map (λ kv, kv.1 +:+ ":" +:+ kv.2) entries)) ∧
    entries ≡ₚ map_to_list merged ∧
    parse_declarations (join "; " (map (λ kv, kv.1 +:+ ":" +:+ kv.2) entries))
    = Ok merged ∧
    (∀ k v, news !! k = Some v → merged !! k = Some v) ∧
    (∀ k v, news !! k = None → olds !! k = Some v → merged !! k = Some v) ∧
    (∀ k v, merged !! k = Some v → news !! k = Some v ∨ olds !! k = Some v).
Proof.
  intros Hflat Hn Ho. exists (news ∪ olds), (items (news ∪ olds)).
  split; [by apply merge_styles_flat|]. split; [apply items_perm|].
  split.
  { apply parse_format_block, clean_block_union;
      by eapply parse_declarations_clean. }
  split; [|split]; intros k v.
  - intros Hk. by apply lookup_union_Some_l.
  - intros Hk Hv. rewrite lookup_union_r; done.
  - rewrite lookup_union_Some_raw. intros [?|[_ ?]]; auto.
Qed.

Lemma merge_precedence_example `{DictOrder} :
  ∃ s, _merge_styles "color:red" "color:blue; font-weight:bold" "" = Ok s ∧
       contains "color:blue" s = true ∧
       contains "font-weight:bold" s = true ∧
       contains "color:red" s = false.
Proof.
  pose (news := <["font-weight" := "bold"]> (<["color" := "blue"]> ∅) : gmap string string).
  pose (olds := {[ "color" := "red" ]} : gmap string string).
  rewrite (merge_styles_flat _ _ news olds) by (vm_compute; reflexivity).
  destruct (format_block_two (news ∪ olds) ("color", "blue") ("font-weight", "bold"))
    as [-> | ->]; [vm_compute; reflexivity|..];
    (eexists; split; [reflexivity|by vm_compute]).
Qed.

Lemma merge_preservation_example `{DictOrder} :
  ∃ s, _merge_styles "color:red; margin:1px" "color:blue" "" = Ok s ∧
       contains "color:blue" s = true ∧
       contains "margin:1px" s = true.
Proof.
  pose (news := {[ "color" := "blue" ]} : gmap string string).
  pose (olds := <["margin" := "1px"]> (<["color" := "red"]> ∅) : gmap string string).
  rewrite (merge_styles_flat _ _ news olds) by (vm_compute; reflexivity).
  destruct (format_block_two (news ∪ olds) ("color", "blue") ("margin", "1px"))
    as [-> | ->]; [vm_compute; reflexivity|..];
    (eexists; split; [reflexivity|by vm_compute]).
Qed.

(** C1. For flat texts [old] and [new] (no brace group in [old]) that parse
    as the declaration blocks [olds] and [news], [_merge_styles old new ""]
    returns the text ["k1:v1; k2:v2; ..."] of the entries of a block
    [merged], which parses back to [merged], and in which every property of
    [news] has the value it has in [news], every property of [olds] that
    [news] does not name keeps its value, and there is nothing else.  In particular the merge of
    old ["color:red"] with new ["color:blue; font-weight:bold"] contains
    [color:blue] and [font-weight:bold] and not [color:red], and the merge
    of old ["color:red; margin:1px"] with new ["color:blue"] retains
    [margin:1px].  This holds for every iteration order of the dicts. *)
Theorem merge_styles_new_wins `{DictOrder} :
  (∀ (old new : string) (news olds : gmap string string),
     Regex.findall Regex.grouping_regex old = [] →
     parse_declarations new = Ok news →
     parse_declarations old = Ok olds →
     ∃ merged entries,
       _merge_styles old new ""
       = Ok (join "; " (map (λ kv, kv.1 +:+ ":" +:+ kv.2) entries)) ∧
       entries ≡ₚ map_to_list merged ∧
       parse_declarations (join "; " (map (λ kv, kv.1 +:+ ":" +:+ kv.2) entries))
       = Ok merged ∧
       (∀ k v, news !! k = Some v → merged !! k = Some v) ∧
       (∀ k v, news !! k = None → olds !! k = Some v → merged !! k = Some v) ∧
       (∀ k v, merged !! k = Some v → news !! k = Some v ∨ olds !! k = Some v)) ∧
  (∃ s, _merge_styles "color:red" "color:blue; font-weight:bold" "" = Ok s ∧
        contains "color:blue" s = true ∧
        contains "font-weight:bold" s = true ∧
        contains "color:red" s = false) ∧
  (∃ s, _merge_styles "color:red; margin:1px" "color:blue" "" = Ok s ∧
        contains "color:blue" s = true ∧
        contains "margin:1px" s = true).
Proof.
  split; [|split].
  - apply @merge_styles_precedence.
  - apply merge_precedence_example.
  - apply merge_preservation_example.
Qed.

Lemma merge_styles_new_wins_witness :
  ∃ merged entries,
    @_merge_styles key_order "font-size:1px; color: red"
      "font-size:2px; font-weight: bold" ""
    = Ok (join "; " (map (λ kv, kv.1 +:+ ":" +:+ kv.2) entries)) ∧
    entries ≡ₚ map_to_list merged ∧
    merged !! "font-size" = Some "2px" ∧
    merged !! "font-weight" = Some "bold" ∧
    merged !! "color" = Some "red".
Proof.
  pose (news := <["font-weight" := "bold"]> (<["font-size" := "2px"]> ∅)
                : gmap string string).
  pose (olds := <["color" := "red"]> (<["font-size" := "1px"]> ∅)
                : gmap string string).
  destruct (proj1 (@merge_styles_new_wins key_order)
              "font-size:1px; color: red" "font-size:2px; font-weight: bold"
              news olds)
    as (merged & entries & Hm & Hp & _ & Hn & Ho & _);
    [vm_compute; reflexivity..|].
  exists merged, entries. split; [exact Hm|]. split; [exact Hp|].
  split; [|split].
  - apply Hn. vm_compute. reflexivity.
  - apply Hn. vm_compute. reflexivity.
  - apply Ho; vm_compute; reflexivity.
Defined.

End MergeTheorems.

(* ================================================================= *)
(** * Further properties of the code *)

(** ** When [_merge_styles] raises *)

Section MergeErrors.
Context `{DictOrder}.
Import Str StrFacts.

Lemma split1_no_sep (c : ascii) (s : string) : mem c s = false → split1 c s = [s].
Proof.
  induction s as [|a s IH]; [done|]. cbn.
  intros [Ha Hs]%orb_false_iff. by rewrite Ha, IH.
Qed.

Lemma mem_lstrip_char (c : ascii) (s : string) :
  is_space c = false → mem c (lstrip s) = mem c s.
Proof.
  intros Hc. induction s as [|a s IH]; [done|]. cbn.
  destruct (is_space a) eqn:Ha; [|done]. rewrite IH.
  destruct (Ascii.eqb_spec a c) as [->|]; [congruence|done].
Qed.

Lemma mem_rstrip_char (c : ascii) (s : string) :
  is_space c = false → mem c (rstrip s) = mem c s.
Proof.
  intros Hc. induction s as [|a s IH]; [done|]. cbn.
  destruct (rstrip s) as [|b r] eqn:Hr.
  - rewrite <- IH. destruct (is_space a) eqn:Ha; [|done]. cbn.
    destruct (Ascii.eqb_spec a c) as [->|]; [congruence|done].
  - cbn [mem]. by rewrite <- IH.
Qed.

Lemma mem_strip_char (c : ascii) (s : string) :
  is_space c = false → mem c (strip s) = mem c s.
Proof. intros Hc. unfold strip. by rewrite mem_rstrip_char, mem_lstrip_char. Qed.

Lemma parse_declaration_colon (x : string) :
  mem ":" x = true → ∃ kv, parse_declaration x = Ok kv.
Proof.
  intros Hx. unfold parse_declaration.
  destruct (split1_mem ":" (strip x)) as (k & v & ->); [|eauto].
  by rewrite mem_strip_char.
Qed.

Lemma parse_declaration_no_colon (x : string) :
  mem ":" x = false → parse_declaration x = Err ValueError.
Proof.
  intros Hx. unfold parse_declaration.
  by rewrite split1_no_sep by (by rewrite mem_strip_char).
Qed.

Lemma parse_into_ok (d : gmap string string) (xs : list string) :
  Forall (λ x, mem ":" x = true) xs → ∃ d', parse_into d xs = Ok d'.
Proof.
  intros Hxs. revert d. induction Hxs as [|x xs Hx _ IH]; intros d; [by eexists|].
  cbn [parse_into]. destruct (parse_declaration_colon x Hx) as [[k v] ->]. cbn.
  apply IH.
Qed.

Lemma parse_into_err (d : gmap string string) (xs : list string) :
  ¬ Forall (λ x, mem ":" x = true) xs → parse_into d xs = Err ValueError.
Proof.
  revert d. induction xs as [|x xs IH]; intros d Hxs.
  - destruct Hxs. constructor.
  - cbn [parse_into]. destruct (mem ":" x) eqn:Hx.
    + destruct (parse_declaration_colon x Hx) as [[k v] ->]. cbn.
      apply IH. intros Hall. apply Hxs. by constructor.
    + by rewrite parse_declaration_no_colon.
Qed.

Lemma block_ok_filter (text : string) :
  block_ok text ↔
  Forall (λ x, mem ":" x = true) (filter (λ x, strip x ≠ "") (split ";" text)).
Proof.
  unfold block_ok, declaration_ok. rewrite !Forall_forall. split.
  - intros Hall x [Hx Hin]%list_elem_of_filter.
    destruct (Hall x Hin); [done|done].
  - intros Hall x Hin. destruct (decide (strip x = "")); [by left|right].
    apply Hall, list_elem_of_filter. done.
Qed.

Lemma parse_declarations_ok (text : string) :
  block_ok text → ∃ d, parse_declarations text = Ok d.
Proof. intros Hok%block_ok_filter. by apply parse_into_ok. Qed.

Lemma parse_declarations_err (text : string) :
  ¬ block_ok text → parse_declarations text = Err ValueError.
Proof. rewrite block_ok_filter. apply parse_into_err. Qed.

Lemma parse_groups_ok (groups : gmap string (gmap string string))
    (ms : list (string * string)) :
  Forall (λ m, block_ok m.2) ms → ∃ groups', parse_groups groups ms = Ok groups'.
Proof.
  intros Hms. revert groups.
  induction Hms as [|[key content] ms Hm _ IH]; intros groups; [by eexists|].
  cbn [parse_groups]. destruct (parse_declarations_ok content Hm) as [d ->]. cbn.
  apply IH.
Qed.

Lemma parse_groups_err (groups : gmap string (gmap string string))
    (ms : list (string * string)) :
  ¬ Forall (λ m, block_ok m.2) ms → parse_groups groups ms = Err ValueError.
Proof.
  revert groups. induction ms as [|[key content] ms IH]; intros groups Hms.
  - destruct Hms. constructor.
  - cbn [parse_groups]. destruct (decide (block_ok content)) as [Hc|Hc].
    + destruct (parse_declarations_ok content Hc) as [d ->]. cbn.
      apply IH. intros Hall. apply Hms. by constructor.
    + by rewrite parse_declarations_err.
Qed.

Lemma parse_old_ok (old : string) :
  old_ok old → ∃ groups, parse_old old = Ok groups.
Proof.
  unfold old_ok, parse_old.
  destruct (Regex.findall Regex.grouping_regex old) as [|m ms].
  - intros [d ->]%parse_declarations_ok. by eexists.
  - apply parse_groups_ok.
Qed.

Lemma parse_old_err (old : string) :
  ¬ old_ok old → parse_old old = Err ValueError.
Proof.
  unfold old_ok, parse_old.
  destruct (Regex.findall Regex.grouping_regex old) as [|m ms].
  - intros Hn. by rewrite parse_declarations_err.
  - apply parse_groups_err.
Qed.

(** The serialization has always a group to render. *)
Lemma serialize_ok (groups : gmap string (gmap string string)) :
  groups ≠ ∅ → ∃ s, serialize groups = Ok s.
Proof.
  intros Hne. unfold serialize.
  destruct (size groups =? 1); [|by eexists].
  destruct (items groups) as [|g l] eqn:E; [|by eexists].
  by apply items_nil_iff in E.
Qed.

Lemma merge_styles_ok_aux (old new class_ : string) :
  block_ok new → old_ok old → ∃ s, _merge_styles old new class_ = Ok s.
Proof.
  intros [news Hn]%parse_declarations_ok [groups Hg]%parse_old_ok.
  unfold _merge_styles. rewrite Hn, Hg. cbn. apply serialize_ok.
  unfold merge_groups. apply insert_non_empty.
Qed.

Lemma merge_styles_err_aux (old new class_ : string) :
  ¬ (block_ok new ∧ old_ok old) → _merge_styles old new class_ = Err ValueError.
Proof.
  intros Hn. unfold _merge_styles.
  destruct (decide (block_ok new)) as [Hb|Hb].
  - destruct (parse_declarations_ok new Hb) as [news ->]. cbn.
    rewrite parse_old_err; [done|]. intros Ho. by apply Hn.
  - by rewrite parse_declarations_err.
Qed.

(** X1. [_merge_styles] returns exactly when every declaration of [new],
    and every declaration of [old] or, with brace groups in [old], of the
    contents of the groups, is blank or has a colon; otherwise it raises
    [ValueError], and nothing else. *)
Theorem merge_styles_raises (old new class_ : string) :
  (block_ok new ∧ old_ok old → ∃ s, _merge_styles old new class_ = Ok s) ∧
  (¬ (block_ok new ∧ old_ok old) → _merge_styles old new class_ = Err ValueError).
Proof.
  split; [intros []; by apply merge_styles_ok_aux|apply merge_styles_err_aux].
Qed.

End MergeErrors.

Lemma merge_styles_raises_witness :
  (∃ s, @_merge_styles key_order "color:red; ;" "margin:0;" ":hover" = Ok s) ∧
  @_merge_styles key_order "color:red" "margin" "" = Err ValueError ∧
  @_merge_styles key_order "x{color}" "margin:0" "" = Err ValueError.
Proof.
  split; [|split].
  - apply (@merge_styles_raises key_order). split.
    + repeat constructor; by vm_compute.
    + vm_compute. repeat constructor; by vm_compute.
  - apply (@merge_styles_raises key_order). intros [Hn _].
    inversion Hn as [|?? Hd _]. by destruct Hd.
  - apply (@merge_styles_raises key_order). intros [_ Ho].
    vm_compute in Ho. inversion Ho as [|?? Hd _]. inversion Hd as [|?? Hx _].
    by destruct Hx.
Defined.

(** ** Successive flat merges *)

Section Cascade.
Context `{DictOrder}.
Import Str StrFacts.

Lemma span_no_brace (s : string) :
  mem "{" s = false →
  ∀ key b rest, span Regex.is_key_char s = (key, String b rest) → b ≠ "{"%char.
Proof.
  induction s as [|a s IH]; intros Hs key b rest; [done|]. cbn in *.
  apply orb_false_iff in Hs as [Ha Hs].
  destruct (Regex.is_key_char a).
  - destruct (span Regex.is_key_char s) as [r t] eqn:E.
    intros [= <- ->]. by eapply IH.
  - intros [= <- <- <-] ->. by rewrite Ascii.eqb_refl in Ha.
Qed.

Lemma grouping_regex_no_brace (s : string) :
  mem "{" s = false → Regex.grouping_regex s = None.
Proof.
  intros Hs. unfold Regex.grouping_regex.
  destruct (span Regex.is_key_char s) as [key [|b rest]] eqn:E; [done|].
  pose proof (span_no_brace s Hs key b rest E).
  by destruct (Ascii.eqb_spec b "{").
Qed.

(** A text without ['{'] has no brace group. *)
Lemma findall_no_brace (s : string) :
  mem "{" s = false → Regex.findall Regex.grouping_regex s = [].
Proof.
  unfold Regex.findall. induction s as [|a s IH]; [done|]. intros Hs.
  cbn [Regex.findall_from]. rewrite grouping_regex_no_brace by done.
  cbn in Hs. apply orb_false_iff in Hs as [_ Hs]. by apply IH.
Qed.

Lemma split_mem_other (c sep : ascii) (s x : string) :
  mem c s = false → x ∈ split sep s → mem c x = false.
Proof.
  revert x. induction s as [|a s IH]; intros x Hs; cbn.
  - by intros ->%list_elem_of_singleton.
  - cbn in Hs. apply orb_false_iff in Hs as [Ha Hs].
    pose proof (split_not_nil sep s) as Hn.
    destruct (Ascii.eqb a sep).
    + intros [->|Hx]%elem_of_cons; [done|auto].
    + destruct (split sep s) as [|w ws]; [done|].
      intros [->|Hx]%elem_of_cons.
      * cbn. rewrite Ha. apply IH; [done|by left].
      * apply IH; [done|by right].
Qed.

Lemma parse_declaration_mem (c : ascii) (x k v : string) :
  mem c x = false → parse_declaration x = Ok (k, v) →
  mem c k = false ∧ mem c v = false.
Proof.
  intros Hx. unfold parse_declaration.
  destruct (split1 ":" (strip x)) as [|k0 [|v0 [|]]] eqn:Hs; try done.
  intros [= <- <-]. apply split1_inv in Hs as [Hs _].
  assert (mem c (strip x) = false) as Hm by (by apply mem_strip).
  rewrite Hs, mem_app in Hm. apply orb_false_iff in Hm as [Hk Hv].
  cbn in Hv. apply orb_false_iff in Hv as [_ Hv]. auto using mem_strip.
Qed.

(** A character that is not in a text is in no key and no value of the
    block parsed from it. *)
Lemma parse_declarations_mem (c : ascii) (text : string) (d : gmap string string) :
  mem c text = false → parse_declarations text = Ok d →
  ∀ k v, d !! k = Some v → mem c k = false ∧ mem c v = false.
Proof.
  intros Ht. unfold parse_declarations.
  assert (Forall (λ x, mem c x = false)
            (filter (λ x, strip x ≠ "") (split ";" text))) as Hxs.
  { apply Forall_forall. intros x [_ Hx]%list_elem_of_filter.
    by eapply split_mem_other. }
  revert Hxs. generalize (filter (λ x, strip x ≠ "") (split ";" text)).
  intros xs Hxs.
  assert (∀ d0 : gmap string string,
    (∀ k v, d0 !! k = Some v → mem c k = false ∧ mem c v = false) →
    parse_into d0 xs = Ok d →
    ∀ k v, d !! k = Some v → mem c k = false ∧ mem c v = false) as Hgen.
  { induction Hxs as [|x xs Hx _ IH]; intros d0 Hd0.
    - by intros [= <-].
    - cbn [parse_into].
      destruct (parse_declaration x) as [[k v]|] eqn:Hp; [|done]. cbn.
      apply IH. intros k' v'. destruct (decide (k = k')) as [<-|Hne].
      + rewrite lookup_insert_eq. intros [= <-]. by eapply parse_declaration_mem.
      + rewrite lookup_insert_ne by done. apply Hd0. }
  apply Hgen. intros k v. by rewrite lookup_empty.
Qed.

Lemma join_mem (c : ascii) (sep : string) (l : list string) :
  mem c sep = false → Forall (λ x, mem c x = false) l →
  mem c (join sep l) = false.
Proof.
  intros Hsep. induction 1 as [|x l Hx Hl IH]; [done|].
  destruct l as [|y l]; [done|]. rewrite join_cons, !mem_app.
  by rewrite Hx, Hsep, IH.
Qed.

(** The rendering of a block has the characters of its entries, colons,
    semicolons and spaces. *)
Lemma format_block_mem (c : ascii) (d : gmap string string) :
  mem c ":; " = false →
  (∀ k v, d !! k = Some v → mem c k = false ∧ mem c v = false) →
  mem c (format_block d) = false.
Proof.
  intros Hc Hd. unfold format_block. apply join_mem.
  - cbn in *. by apply orb_false_iff in Hc as [_ ?].
  - apply Forall_fmap, Forall_forall. intros [k v] Hkv%items_lookup.
    destruct (Hd k v Hkv) as [Hk Hv]. unfold compose. cbn [fst snd].
    rewrite !mem_app, Hk, Hv. cbn in *.
    by apply orb_false_iff in Hc as [-> _].
Qed.

(** The text of a flat merge of texts without ['{'] is flat and parses
    back to the merged block. *)
Lemma merge_styles_flat_text (old new : string) (news olds : gmap string string) :
  mem "{" old = false → mem "{" new = false →
  parse_declarations new = Ok news →
  parse_declarations old = Ok olds →
  _merge_styles old new "" = Ok (format_block (news ∪ olds)) ∧
  mem "{" (format_block (news ∪ olds)) = false ∧
  parse_declarations (format_block (news ∪ olds)) = Ok (news ∪ olds).
Proof.
  intros Hold Hnew Hn Ho. split; [|split].
  - by apply merge_styles_flat; [apply findall_no_brace|..].
  - apply format_block_mem; [done|].
    intros k v [Hk|[_ Hk]]%lookup_union_Some_raw.
    + by eapply (parse_declarations_mem "{" new).
    + by eapply (parse_declarations_mem "{" old).
  - apply parse_format_block, clean_block_union; by eapply parse_declarations_clean.
Qed.

Lemma merge_styles_cascade_aux (old new1 new2 : string)
    (olds n1 n2 : gmap string string) :
  mem "{" old = false → mem "{" new1 = false →
  parse_declarations old = Ok olds →
  parse_declarations new1 = Ok n1 →
  parse_declarations new2 = Ok n2 →
  ∃ t, _merge_styles old new1 "" = Ok t ∧
       _merge_styles t new2 "" = Ok (format_block (n2 ∪ (n1 ∪ olds))).
Proof.
  intros Hold Hnew Ho H1 H2.
  destruct (merge_styles_flat_text old new1 n1 olds) as (Hm & Hb & Hp); [done..|].
  eexists. split; [exact Hm|].
  by apply merge_styles_flat; [apply findall_no_brace|..].
Qed.

(** X2. Two successive flat merges under the empty key: when [old] and
    [new1] have no ['{'], merging [new1] into [old] and then [new2] into the
    result gives the text of a block in which a property has its value in
    [new2], else its value in [new1], else its value in [old]; the later
    merge wins. *)
Theorem merge_styles_cascade (old new1 new2 : string)
    (olds n1 n2 : gmap string string) :
  mem "{" old = false → mem "{" new1 = false →
  parse_declarations old = Ok olds →
  parse_declarations new1 = Ok n1 →
  parse_declarations new2 = Ok n2 →
  ∃ t merged,
    _merge_styles old new1 "" = Ok t ∧
    _merge_styles t new2 "" = Ok (format_block merged) ∧
    parse_declarations (format_block merged) = Ok merged ∧
    ∀ k, merged !! k
         = match n2 !! k with
           | Some v => Some v
           | None => match n1 !! k with
                     | Some v => Some v
                     | None => olds !! k
                     end
           end.
Proof.
  intros Hold Hnew Ho H1 H2.
  destruct (merge_styles_cascade_aux old new1 new2 olds n1 n2)
    as (t & Ht & Hm); [done..|].
  exists t, (n2 ∪ (n1 ∪ olds)). split; [done|]. split; [done|]. split.
  - apply parse_format_block.
    repeat apply clean_block_union; by eapply parse_declarations_clean.
  - intros k. rewrite !lookup_union.
    by destruct (n2 !! k), (n1 !! k), (olds !! k).
Qed.


End Cascade.

Lemma merge_styles_cascade_witness :
  ∃ t merged,
    @_merge_styles key_order "color:red; margin:0" "color:blue; width:1px" "" = Ok t ∧
    @_merge_styles key_order t "color:green" "" = Ok (@format_block key_order merged) ∧
    merged !! "color" = Some "green" ∧
    merged !! "width" = Some "1px" ∧
    merged !! "margin" = Some "0".
Proof.
  destruct (@merge_styles_cascade key_order
              "color:red; margin:0" "color:blue; width:1px" "color:green"
              (<["margin" := "0"]> (<["color" := "red"]> ∅))
              (<["width" := "1px"]> (<["color" := "blue"]> ∅))
              {[ "color" := "green" ]})
    as (t & merged & H1 & H2 & _ & Hk); [vm_compute; reflexivity..|].
  exists t, merged. split; [exact H1|]. split; [exact H2|].
  rewrite !Hk. split; [|split]; vm_compute; reflexivity.
Defined.


(** ** Merging under a pseudo-class *)

Section PseudoClass.
Context `{DictOrder}.
Import Str StrFacts.

Lemma length_app (s t : string) :
  String.length (s +:+ t) = String.length s + String.length t.
Proof. induction s as [|a s IH]; [done|]. rewrite app_cons. cbn. by rewrite IH. Qed.

Lemma span_app_stop (p : ascii → bool) (s : string) (a : ascii) (t : string) :
  all_chars p s = true → p a = false →
  span p (s +:+ String a t) = (s, String a t).
Proof.
  intros Hs Ha. induction s as [|b s IH].
  - change ("" +:+ ?x) with x. cbn. by rewrite Ha.
  - cbn in Hs. apply andb_true_iff in Hs as [Hb Hs].
    rewrite app_cons. cbn -[String.append]. by rewrite Hb, IH.
Qed.

Lemma all_chars_not_char (c : ascii) (s : string) :
  mem c s = false → all_chars (Regex.not_char c) s = true.
Proof.
  induction s as [|a s IH]; [done|]. cbn.
  intros [Ha Hs]%orb_false_iff. unfold Regex.not_char at 1. by rewrite Ha, IH.
Qed.

Lemma findall_from_skip {G : Type} (m : string → option (G * nat)) (t u : string) :
  Regex.findall_from m (String.length t) (t +:+ u) = Regex.findall_from m 0 u.
Proof. induction t as [|a t IH]; [by destruct u|]. by rewrite app_cons. Qed.

(** A match at the start of the text: the scan goes on after it. *)
Lemma findall_hit {G : Type} (m : string → option (G * nat)) (pre rest : string) (g : G) :
  pre ≠ "" → m (pre +:+ rest) = Some (g, String.length pre) →
  Regex.findall m (pre +:+ rest) = g :: Regex.findall m rest.
Proof.
  unfold Regex.findall. destruct pre as [|a pre]; [done|]. intros _ Hm.
  rewrite app_cons in *. cbn [Regex.findall_from]. rewrite Hm.
  cbn [String.length]. rewrite Nat.sub_succ, Nat.sub_0_r.
  by rewrite findall_from_skip.
Qed.

(** [grouping_regex] on a key, a brace and a content without ['}']. *)
Lemma grouping_regex_group (key content rest : string) :
  all_chars Regex.is_key_char key = true → content ≠ "" → mem "}" content = false →
  Regex.grouping_regex ((key +:+ "{" +:+ content +:+ "}") +:+ rest)
  = Some ((key, content), String.length (key +:+ "{" +:+ content +:+ "}")).
Proof.
  intros Hk Hc Hm. unfold Regex.grouping_regex.
  rewrite !app_assoc.
  change ("{" +:+ ?x) with (String "{" x).
  rewrite span_app_stop by done. rewrite Ascii.eqb_refl.
  change ("}" +:+ ?x) with (String "}" x).
  rewrite span_app_stop by (by apply all_chars_not_char || done).
  destruct content as [|c content]; [done|].
  rewrite !app_cons, !length_app. cbn [String.length]. rewrite length_app.
  cbn [String.length]. do 2 f_equal. lia.
Qed.

Lemma findall_group (key content rest : string) :
  all_chars Regex.is_key_char key = true → content ≠ "" → mem "}" content = false →
  Regex.findall Regex.grouping_regex ((key +:+ "{" +:+ content +:+ "}") +:+ rest)
  = (key, content) :: Regex.findall Regex.grouping_regex rest.
Proof.
  intros Hk Hc Hm. apply findall_hit; [|by apply grouping_regex_group].
  destruct key; [done|done].
Qed.

Lemma findall_two_groups (b1 class_ b2 : string) :
  all_chars Regex.is_key_char class_ = true →
  b1 ≠ "" → b2 ≠ "" → mem "}" b1 = false → mem "}" b2 = false →
  Regex.findall Regex.grouping_regex (two_groups_text b1 class_ b2)
  = [("", b1); (class_, b2)].
Proof.
  intros Hk H1 H2 Hm1 Hm2. unfold two_groups_text.
  change ("{" +:+ b1 +:+ "}") with ("" +:+ "{" +:+ b1 +:+ "}").
  rewrite findall_group by done. f_equal.
  change (" " +:+ ?x) with (String " " x).
  unfold Regex.findall at 1. cbn [Regex.findall_from].
  assert (Regex.grouping_regex (String " " (class_ +:+ "{" +:+ b2 +:+ "}")) = None) as ->.
  { unfold Regex.grouping_regex. by cbn [span]. }
  fold (Regex.findall Regex.grouping_regex (class_ +:+ "{" +:+ b2 +:+ "}")).
  rewrite <- (app_nil_r (class_ +:+ "{" +:+ b2 +:+ "}")).
  by rewrite findall_group.
Qed.

(** The two groups are rendered in that order, the unconditional one being
    left out when it is empty. *)
Lemma serialize_class_group (class_ : string) (olds news : gmap string string) :
  0 < count ":" class_ → news ≠ ∅ →
  serialize (<[class_ := news]> {[ "" := olds ]})
  = Ok (if decide (olds = ∅) then class_ +:+ "{" +:+ format_block news +:+ "}"
        else two_groups_text (format_block olds) class_ (format_block news)).
Proof.
  intros Hc Hn.
  assert (class_ ≠ "") as Hne by (intros ->; cbn in Hc; lia).
  rewrite (serialize_two _ ("", olds) (class_, news)).
  - change [format_group ("", olds); format_group (class_, news)]
      with (map format_group [("", olds); (class_, news)]).
    rewrite filter_format_group.
    destruct (decide (olds = ∅)) as [->|Ho].
    + rewrite filter_cons_False by (by intros []).
      by rewrite filter_cons_True by (by intros []).
    + rewrite filter_cons_True by (by intros []).
      by rewrite filter_cons_True by (by intros []).
  - rewrite map_to_list_insert by (by rewrite lookup_singleton_ne).
    by rewrite map_to_list_singleton, Permutation_swap.
  - cbn. lia.
Qed.

(** X4. Merging [new], not empty, into a flat [old] under a class with a
    colon leaves the declarations of [old] as the unconditional group and
    puts those of [new] in the group of the class: the result is
    ["{old} class{new}"], and ["class{new}"] alone when [old] has no
    declaration. *)
Theorem merge_styles_pseudo_class (old new class_ : string)
    (olds news : gmap string string) :
  Regex.findall Regex.grouping_regex old = [] →
  parse_declarations old = Ok olds →
  parse_declarations new = Ok news →
  0 < count ":" class_ → news ≠ ∅ →
  _merge_styles old new class_
  = Ok (if decide (olds = ∅) then class_ +:+ "{" +:+ format_block news +:+ "}"
        else ("{" +:+ format_block olds +:+ "}") +:+ " " +:+
             (class_ +:+ "{" +:+ format_block news +:+ "}")).
Proof.
  intros Hflat Ho Hn Hc Hne.
  rewrite (merge_styles_under_class old new class_ olds news); [|..|done|done|done].
  - by apply serialize_class_group.
  - intros ->. cbn in Hc. lia.
Qed.

(** X5. The text of two groups parses back to the groups: for an
    unconditional group and a group under a class made of the characters of
    a key, with a colon, both not empty, clean and without ['}'], the text
    that [serialize] returns is read by [parse_old] as the same two groups. *)
Theorem serialize_parse_old (class_ : string) (olds news : gmap string string) :
  all_chars Regex.is_key_char class_ = true → 0 < count ":" class_ →
  olds ≠ ∅ → news ≠ ∅ → clean_block olds → clean_block news →
  (∀ k v, olds !! k = Some v → mem "}" k = false ∧ mem "}" v = false) →
  (∀ k v, news !! k = Some v → mem "}" k = false ∧ mem "}" v = false) →
  ∃ t, serialize (<[class_ := news]> {[ "" := olds ]}) = Ok t ∧
       parse_old t = Ok (<[class_ := news]> {[ "" := olds ]}).
Proof.
  intros Hk Hc Ho Hn Hco Hcn Hmo Hmn.
  exists (two_groups_text (format_block olds) class_ (format_block news)).
  split.
  - rewrite serialize_class_group by done. by rewrite decide_False.
  - unfold parse_old. rewrite findall_two_groups; [|done|..].
    + cbn [parse_groups]. rewrite !parse_format_block by done. cbn.
      by rewrite insert_empty.
    + by rewrite format_block_nil_iff.
    + by rewrite format_block_nil_iff.
    + by apply format_block_mem.
    + by apply format_block_mem.
Qed.

End PseudoClass.

Lemma merge_styles_pseudo_class_witness :
  @_merge_styles key_order "color:red" "color:blue" ":hover"
  = Ok "{color:red} :hover{color:blue}" ∧
  @_merge_styles key_order "" "color:blue" ":hover" = Ok ":hover{color:blue}".
Proof.
  split.
  - rewrite (@merge_styles_pseudo_class key_order "color:red" "color:blue" ":hover"
               {[ "color" := "red" ]} {[ "color" := "blue" ]});
      [vm_compute; reflexivity | vm_compute; reflexivity.. | vm_compute; lia
      | apply map_non_empty_singleton].
  - rewrite (@merge_styles_pseudo_class key_order "" "color:blue" ":hover"
               ∅ {[ "color" := "blue" ]});
      [vm_compute; reflexivity | vm_compute; reflexivity.. | vm_compute; lia
      | apply map_non_empty_singleton].
Defined.

Lemma serialize_parse_old_witness :
  ∃ t, @serialize key_order (<[":hover" := {[ "color" := "blue" ]}]>
                               {[ "" := {[ "color" := "red" ]} ]}) = Ok t ∧
       parse_old t = Ok (<[":hover" := {[ "color" := "blue" ]}]>
                          {[ "" := {[ "color" := "red" ]} ]}).
Proof.
  apply (@serialize_parse_old key_order ":hover"
           {[ "color" := "red" ]} {[ "color" := "blue" ]}).
  - reflexivity.
  - vm_compute. lia.
  - apply map_non_empty_singleton.
  - apply map_non_empty_singleton.
  - intros k v [<- <-]%lookup_singleton_Some. by vm_compute.
  - intros k v [<- <-]%lookup_singleton_Some. by vm_compute.
  - intros k v [<- <-]%lookup_singleton_Some. by vm_compute.
  - intros k v [<- <-]%lookup_singleton_Some. by vm_compute.
Defined.

(** ** What the attribute mapper changes *)

Section MapperUpdates.
Context `{DictOrder}.
Import Str StrFacts.

Lemma style_to_basic_html_attributes_keep (element : gmap string string)
    (style_content : string) :
  _style_to_basic_html_attributes element style_content false
  = element ∪ basic_attributes style_content.
Proof.
  unfold _style_to_basic_html_attributes.
  rewrite <- (merge_into_items element (basic_attributes style_content)).
  unfold merge_into. apply foldl_ext. intros a kv. rewrite andb_true_r.
  destruct (a !! kv.1) eqn:E.
  - rewrite bool_decide_true; [done|eauto].
  - rewrite bool_decide_false; [done|]. by intros [? ?].
Qed.

(** X6. The projected attributes are set in any order with the same
    result: with [force] they overwrite the attributes of the element, and
    without [force] an attribute that the element has is left as it is. *)
Theorem style_to_basic_html_attributes_union (element : gmap string string)
    (style_content : string) :
  _style_to_basic_html_attributes element style_content true
  = basic_attributes style_content ∪ element ∧
  _style_to_basic_html_attributes element style_content false
  = element ∪ basic_attributes style_content.
Proof.
  split; [apply style_to_basic_html_attributes_force
         |apply style_to_basic_html_attributes_keep].
Qed.

(** X7. The mapper only ever sets [align], [bgcolor], [width] and [height]:
    every other attribute of the element, [style] and [class] among them,
    is as before, and no attribute is removed. *)
Theorem style_to_basic_html_attributes_frame (element : gmap string string)
    (style_content : string) (force : bool) (k : string) :
  (k ∉ ["align"; "bgcolor"; "width"; "height"] →
   _style_to_basic_html_attributes element style_content force !! k = element !! k) ∧
  (is_Some (element !! k) →
   is_Some (_style_to_basic_html_attributes element style_content force !! k)).
Proof.
  assert (_style_to_basic_html_attributes element style_content force !! k
          = if force then (basic_attributes style_content ∪ element) !! k
            else (element ∪ basic_attributes style_content) !! k) as ->.
  { destruct force;
      [by rewrite style_to_basic_html_attributes_force
      |by rewrite style_to_basic_html_attributes_keep]. }
  split.
  - intros Hk.
    assert (basic_attributes style_content !! k = None) as Hb.
    { destruct (basic_attributes style_content !! k) eqn:E; [|done].
      destruct Hk. apply (basic_attributes_keys style_content). eauto. }
    destruct force; rewrite lookup_union, Hb; by destruct (element !! k).
  - intros [v Hv]. destruct force; rewrite lookup_union, Hv;
      by destruct (basic_attributes style_content !! k).
Qed.

Lemma count_no_mem (c : ascii) (s : string) : mem c s = false → count c s = 0.
Proof.
  induction s as [|a s IH]; [done|]. cbn.
  intros [-> Hs]%orb_false_iff. by rewrite IH.
Qed.

(** X8. On a text that starts with the unconditional group in braces, as in
    the docstring of the method, the mapper does what it does on the
    declarations of that group alone, whatever follows the group. *)
Theorem style_to_basic_html_attributes_grouped (element : gmap string string)
    (body rest : string) (force : bool) :
  mem "}" body = false →
  _style_to_basic_html_attributes element ("{" +:+ body +:+ "}" +:+ rest) force
  = _style_to_basic_html_attributes element body force.
Proof.
  intros Hb. unfold _style_to_basic_html_attributes, basic_attributes.
  rewrite unconditional_text_grouped by done.
  assert (unconditional_text body = body) as ->; [|done].
  unfold unconditional_text. by rewrite count_no_mem.
Qed.

End MapperUpdates.

Lemma style_to_basic_html_attributes_frame_witness :
  @_style_to_basic_html_attributes key_order
    {[ "style" := "width:10px"; "class" := "c" ]} "width:10px" true !! "class"
  = Some "c".
Proof.
  rewrite (proj1 (@style_to_basic_html_attributes_frame key_order
                    {[ "style" := "width:10px"; "class" := "c" ]}
                    "width:10px" true "class")).
  - vm_compute. reflexivity.
  - intros Hin. repeat (apply elem_of_cons in Hin as [Hin|Hin]; [done|]).
    by apply elem_of_nil in Hin.
Defined.

Lemma style_to_basic_html_attributes_grouped_witness :
  @_style_to_basic_html_attributes key_order ∅
    "{width:10px; color:red} :hover{height:5px; width:20px}" true
  = @_style_to_basic_html_attributes key_order ∅ "width:10px; color:red" true.
Proof.
  apply (@style_to_basic_html_attributes_grouped key_order ∅
           "width:10px; color:red" " :hover{height:5px; width:20px}" true).
  reflexivity.
Defined.

(** ** The rule extractor as two filters *)

Section Extractor.
Import Str StrFacts.

Lemma classify_selectors_filter (self : Premailer) (bulk : string)
    (l : list string) (rules leftover : list rule) :
  foldl (classify_selector self bulk) (rules, leftover) l
  = (rules ++ filter (λ r, is_leftover self r = false ∧ is_dropped self r = false)
                (map (λ selector, (selector, bulk)) l),
     leftover ++ filter (λ r, is_leftover self r = true)
                   (map (λ selector, (selector, bulk)) l)).
Proof.
  revert rules leftover. induction l as [|selector l IH]; intros rules leftover.
  - cbn. by rewrite !(right_id_L [] (++)).
  - cbn [foldl map]. unfold classify_selector at 2.
    change (mem ":" selector && exclude_pseudoclasses self &&
            bool_decide (pseudo_suffix selector ∉ FILTER_PSEUDOSELECTORS))
      with (is_leftover self (selector, bulk)).
    change (bool_decide (selector = "*") && negb (include_star_selectors self))
      with (is_dropped self (selector, bulk)).
    destruct (is_leftover self (selector, bulk)) eqn:E1;
      [|destruct (is_dropped self (selector, bulk)) eqn:E2];
      rewrite IH, !filter_cons.
    + rewrite decide_False by (rewrite E1; by intros []).
      rewrite decide_True by done. by rewrite <- (assoc_L (++)).
    + rewrite decide_False by (rewrite E2; by intros []).
      by rewrite decide_False by (by rewrite E1).
    + rewrite decide_True by done.
      rewrite decide_False by (by rewrite E1). by rewrite <- (assoc_L (++)).
Qed.

Lemma parse_blocks_filter (self : Premailer)
    (blocks : list (string * string * string)) (rules leftover : list rule) :
  foldl (parse_block self) (rules, leftover) blocks
  = (rules ++ filter (λ r, is_leftover self r = false ∧ is_dropped self r = false)
                (flat_map (λ each : string * string * string,
                             map (λ selector, (selector, normalize_bulk each.2))
                                 (selector_list each.1.2)) blocks),
     leftover ++ filter (λ r, is_leftover self r = true)
                   (flat_map (λ each : string * string * string,
                                map (λ selector, (selector, normalize_bulk each.2))
                                    (selector_list each.1.2)) blocks)).
Proof.
  revert rules leftover.
  induction blocks as [|[[whole selectors] bulk] blocks IH]; intros rules leftover.
  - cbn. by rewrite !(right_id_L [] (++)).
  - cbn [foldl flat_map fst snd]. unfold parse_block at 2.
    rewrite classify_selectors_filter, IH, !filter_app. by rewrite <- !(assoc_L (++)).
Qed.

(** X9. The rule extractor keeps the source order and classifies every
    pair (selector, declarations) on its own: [leftover] is the sequence of
    the pairs whose selector has a colon and a suffix that is not in
    [FILTER_PSEUDOSELECTORS], when pseudo-classes are excluded, and [rules]
    is the sequence of the other pairs, less those of the selector [*]
    unless star selectors are included. *)
Theorem parse_style_rules_filters (self : Premailer) (css_body : string) :
  _parse_style_rules self css_body
  = (filter (λ r, is_leftover self r = false ∧ is_dropped self r = false)
       (candidate_rules css_body),
     filter (λ r, is_leftover self r = true) (candidate_rules css_body)).
Proof. unfold _parse_style_rules. by rewrite parse_blocks_filter. Qed.

Lemma sub_from_mem (c : ascii) (m : string → option nat) (repl : string)
    (skip : nat) (s : string) :
  mem c repl = false → mem c s = false → mem c (Regex.sub_from m repl skip s) = false.
Proof.
  intros Hr. revert skip. induction s as [|a s IH]; intros skip; [done|].
  cbn [mem Regex.sub_from]. intros [Ha Hs]%orb_false_iff.
  destruct skip as [|k]; [|by apply IH].
  destruct (m (String a s)) as [n|].
  - rewrite mem_app, Hr. by apply IH.
  - cbn. rewrite Ha. by apply IH.
Qed.

Lemma init_mem (c : ascii) (s : string) : mem c s = false → mem c (init s) = false.
Proof.
  induction s as [|a s IH]; [done|]. cbn.
  intros [Ha Hs]%orb_false_iff. destruct s as [|b s]; [done|].
  cbn [mem] in *. rewrite Ha. by apply IH.
Qed.

Lemma normalize_bulk_mem (c : ascii) (bulk : string) :
  mem c ";:" = false → mem c bulk = false → mem c (normalize_bulk bulk) = false.
Proof.
  intros Hc Hb. unfold normalize_bulk.
  assert (mem c ";" = false ∧ mem c ":" = false) as [H1 H2].
  { cbn in *. apply orb_false_iff in Hc as [-> Hc]. by rewrite Hc. }
  assert (mem c (Regex.sub Regex._colon_regex ":"
                   (strip (Regex.sub Regex._semicolon_regex ";" (strip bulk))))
          = false) as Hm.
  { unfold Regex.sub. apply sub_from_mem; [done|]. apply mem_strip.
    apply sub_from_mem; [done|]. by apply mem_strip. }
  case_match; [by apply init_mem|done].
Qed.

Lemma span_snd_not (c : ascii) (s : string) :
  mem c (span (Regex.not_char c) s).1 = false.
Proof.
  induction s as [|a s IH]; [done|]. cbn. unfold Regex.not_char at 1.
  destruct (Ascii.eqb a c) eqn:E; cbn; [done|].
  destruct (span (Regex.not_char c) s). cbn in *. by rewrite E.
Qed.

Lemma findall_regex_groups (skip : nat) (s : string) (each : string * string * string) :
  each ∈ Regex.findall_from Regex._regex skip s →
  mem "{" each.1.2 = false ∧ mem "}" each.2 = false.
Proof.
  revert skip. induction s as [|a s IH]; intros skip; cbn [Regex.findall_from].
  - by intros ?%elem_of_nil.
  - destruct skip as [|k]; [|apply IH].
    destruct (Regex._regex (String a s)) as [[g n]|] eqn:E; [|apply IH].
    intros [->|Hin]%elem_of_cons; [|by eapply IH].
    unfold Regex._regex in E.
    pose proof (span_snd_not "{" (String a s)) as H1.
    destruct (span (Regex.not_char "{") (String a s)) as [selectors [|b rest]]; [done|].
    pose proof (span_snd_not "}" rest) as H2.
    destruct (span (Regex.not_char "}") rest) as [bulk [|b' rest']]; [done|].
    by injection E as <- _.
Qed.

(** X10. Every selector that the rule extractor returns, in [rules] or in
    [leftover], is not empty, has no white space at either end, does not
    start with ['@'] and has no [','] and no ['{']; the declarations that go
    with it have no ['}']. *)
Theorem parse_style_rules_selectors (self : Premailer) (css_body : string) (r : rule) :
  r ∈ (_parse_style_rules self css_body).1 ++ (_parse_style_rules self css_body).2 →
  r.1 ≠ "" ∧ strip r.1 = r.1 ∧ startswith "@" r.1 = false ∧
  mem "," r.1 = false ∧ mem "{" r.1 = false ∧ mem "}" r.2 = false.
Proof.
  rewrite parse_style_rules_filters. cbn [fst snd].
  intros Hr. assert (r ∈ candidate_rules css_body) as Hc.
  { apply elem_of_app in Hr as [Hr|Hr]; by apply list_elem_of_filter in Hr as [_ ?]. }
  clear Hr. unfold candidate_rules in Hc.
  apply list_elem_of_In, in_flat_map in Hc as (each & Heach & Hin).
  apply list_elem_of_In in Heach, Hin.
  apply findall_regex_groups in Heach as [Hs Hb].
  apply list_elem_of_fmap in Hin as (selector & -> & Hsel). cbn [fst snd].
  unfold selector_list in Hsel.
  apply list_elem_of_fmap in Hsel as (x & -> & [[Hx Hat] Hxin]%list_elem_of_filter).
  split; [done|]. split; [apply strip_id; apply strip_stripped|].
  split; [done|]. split; [by apply mem_strip, (split_mem "," each.1.2)|].
  split; [by apply mem_strip, (split_mem_other "{" "," each.1.2)|].
  by apply normalize_bulk_mem.
Qed.

End Extractor.

Lemma parse_style_rules_selectors_witness :
  let self := {| exclude_pseudoclasses := true; include_star_selectors := false |} in
  _parse_style_rules self "h1, a:hover { color : red; } @media x, * {a:b}"
  = ([("h1", "color :red")], [("a:hover", "color :red")]) ∧
  Str.strip "a:hover" = "a:hover" ∧ Str.mem "}" "color :red" = false.
Proof.
  intros self. split; [vm_compute; reflexivity|].
  destruct (parse_style_rules_selectors self
              "h1, a:hover { color : red; } @media x, * {a:b}"
              ("a:hover", "color :red")) as (_ & Hs & _ & _ & _ & Hb).
  - vm_compute. apply elem_of_cons. right. by left.
  - by split.
Defined.

(** ** The exceptions of the shorthand expander and its locals *)

Section ExpanderState.
Import Str StrFacts.

#[local] Arguments expand_property : simpl never.
#[local] Arguments expand_rule : simpl never.

Lemma expand_property_exn st d e :
  expand_property st d = Err e → e = ValueError ∨ e = UnboundLocalError.
Proof.
  destruct st as [locals properties]. unfold expand_property.
  destruct (split ":" d) as [|p [|v [|]]]; try (intros [= <-]; by left).
  destruct (is_spacing p); [|done].
  destruct (assign_sides (words v) locals); [done|]. intros [= <-]. by right.
Qed.

Lemma expand_properties_exn st ds e :
  expand_properties st ds = Err e → e = ValueError ∨ e = UnboundLocalError.
Proof.
  revert st. induction ds as [|d ds IH]; intros st; [done|].
  cbn [expand_properties].
  destruct (expand_property st d) as [st'|e'] eqn:E; cbn.
  - apply IH.
  - intros [= <-]. by eapply expand_property_exn.
Qed.

Lemma terminated_not_nil (l : list string) : l ≠ [] → terminated l ≠ "".
Proof. destruct l as [|x l]; [done|]. intros _. cbn. by destruct x. Qed.

Lemma expand_rule_exn locals r e :
  expand_rule locals r = Err e → e = ValueError ∨ e = UnboundLocalError.
Proof.
  destruct r as [selector style]. unfold expand_rule.
  destruct (expand_properties (locals, "") (split ";" style))
    as [[l1 p1]|e'] eqn:E1.
  - apply expand_properties_ok in E1 as (pieces & _ & Hne & ->).
    cbn. change ("" +:+ ?x) with x.
    by rewrite drop_trailing_terminated by (apply Hne, split_not_nil).
  - cbn. intros [= <-]. by eapply expand_properties_exn.
Qed.

(** X11. [_split_spacing_properties] raises nothing but the [ValueError] of
    the unpacking and the [UnboundLocalError] of the spacing locals: the
    accumulated text is never empty when its last character is read, so
    there is no [IndexError]. *)
Theorem split_spacing_properties_exceptions (rules : list rule) (e : exn) :
  _split_spacing_properties rules = Err e → e = ValueError ∨ e = UnboundLocalError.
Proof.
  unfold _split_spacing_properties. generalize (@None sides).
  induction rules as [|r rules IH]; intros locals; [done|].
  cbn [expand_rules].
  destruct (expand_rule locals r) as [[l1 r1]|e1] eqn:E1; cbn.
  - destruct (expand_rules l1 rules) as [os|e2] eqn:E2; cbn; [done|].
    intros [= <-]. by eapply IH.
  - intros [= <-]. by eapply expand_rule_exn.
Qed.

Lemma expand_property_locals locals properties d locals' properties' :
  expand_property (locals, properties) d = Ok (locals', properties') →
  locals' = locals_after_declaration locals d.
Proof.
  unfold expand_property, locals_after_declaration.
  destruct (split ":" d) as [|p [|v [|]]]; try done.
  destruct (is_spacing p); [|by intros [= <- _]].
  destruct (assign_sides (words v) locals); [|done]. by intros [= <- _].
Qed.

Lemma expand_properties_locals locals properties ds locals' properties' :
  expand_properties (locals, properties) ds = Ok (locals', properties') →
  locals' = foldl locals_after_declaration locals ds.
Proof.
  revert locals properties. induction ds as [|d ds IH]; intros locals properties.
  - by intros [= <- _].
  - cbn [expand_properties foldl].
    destruct (expand_property (locals, properties) d) as [[l1 p1]|] eqn:E; [|done].
    cbn. apply expand_property_locals in E as ->. apply IH.
Qed.

Lemma expand_rule_locals locals r locals' o :
  expand_rule locals r = Ok (locals', o) →
  locals' = foldl locals_after_declaration locals (declarations r).
Proof.
  destruct r as [selector style]. unfold expand_rule, declarations. cbn [snd].
  destruct (expand_properties (locals, "") (split ";" style))
    as [[l1 p1]|] eqn:E1; [|done].
  apply expand_properties_locals in E1 as ->. cbn.
  destruct (drop_trailing_semicolon p1); [|done]. by intros [= <- _].
Qed.

(** The expansion of well-formed rules followed by other rules. *)
Lemma expand_rules_app locals rules rest :
  Forall well_formed rules →
  expand_rules locals (rules ++ rest)
  = orules ← expand_rules (locals_after locals rules) rest;
    mret (map (λ r, (r.1, expand_block r.2)) rules ++ orules).
Proof.
  intros Hwf. revert locals. induction Hwf as [|r rules Hr _ IH]; intros locals.
  - cbn. by destruct (expand_rules locals rest).
  - cbn [app expand_rules locals_after foldl map].
    destruct (expand_rule_wf locals r Hr) as [l1 E1]. rewrite E1. cbn.
    apply expand_rule_locals in E1 as ->. fold (locals_after
      (foldl locals_after_declaration locals (declarations r)) rules).
    rewrite IH. by destruct (expand_rules _ rest).
Qed.

Lemma expand_rule_no_value locals selector p :
  is_spacing p = true →
  expand_rule locals (selector, p +:+ ":")
  = match locals with
    | Some s => Ok (locals, (selector, join ";" (longhands p s)))
    | None => Err UnboundLocalError
    end.
Proof.
  intros Hp.
  assert (p = "margin" ∨ p = "padding") as Hcases.
  { unfold is_spacing in Hp. apply orb_true_iff in Hp as [Hp|Hp];
      apply bool_decide_eq_true in Hp; auto. }
  assert (split ";" (p +:+ ":") = [p +:+ ":"] ∧ split ":" (p +:+ ":") = [p; ""])
    as [E1 E2] by (by destruct Hcases as [-> | ->]).
  unfold expand_rule. rewrite E1. cbn [expand_properties].
  unfold expand_property. rewrite E2, Hp. cbn [words assign_sides].
  destruct locals as [s|]; [|done]. cbn. change ("" +:+ ?x) with x.
  rewrite new_properties_longhands.
  by rewrite drop_trailing_terminated.
Qed.

(** X12. The spacing locals outlive the declaration and the rule that set
    them.  After well-formed rules, a [margin] or [padding] declaration
    without any value is expanded with the values of the last [margin] or
    [padding] declaration before it, in whatever rule that was; with no
    such declaration before it, it raises [UnboundLocalError]. *)
Theorem split_spacing_properties_stale (rules : list rule) (selector p : string) :
  Forall well_formed rules → is_spacing p = true →
  _split_spacing_properties (rules ++ [(selector, p +:+ ":")])
  = match locals_after None rules with
    | Some s => Ok (map (λ r, (r.1, expand_block r.2)) rules
                    ++ [(selector, join ";" (longhands p s))])
    | None => Err UnboundLocalError
    end.
Proof.
  intros Hwf Hp. unfold _split_spacing_properties.
  rewrite expand_rules_app by done. cbn [expand_rules].
  rewrite expand_rule_no_value by done.
  by destruct (locals_after None rules).
Qed.

End ExpanderState.

Lemma split_spacing_properties_exceptions_witness :
  UnboundLocalError = ValueError ∨ UnboundLocalError = UnboundLocalError.
Proof.
  apply (split_spacing_properties_exceptions [("p", "margin:1 2 3 4 5")]).
  vm_compute. reflexivity.
Defined.

Lemma split_spacing_properties_stale_witness :
  _split_spacing_properties [("h1", "margin:0 auto"); ("p", "color:red"); ("p", "padding:")]
  = Ok [("h1", "margin-top:0;margin-right:auto;margin-bottom:0;margin-left:auto");
        ("p", "color:red");
        ("p", "padding-top:0;padding-right:auto;padding-bottom:0;padding-left:auto")] ∧
  _split_spacing_properties [("p", "color:red"); ("p", "padding:")]
  = Err UnboundLocalError.
Proof.
  split.
  - etrans.
    + apply (split_spacing_properties_stale
               [("h1", "margin:0 auto"); ("p", "color:red")] "p" "padding").
      * repeat (constructor; [split; (constructor; [|constructor]); vm_compute;
                              first [reflexivity | lia | done]|]).
        constructor.
      * reflexivity.
    + vm_compute. reflexivity.
  - etrans.
    + apply (split_spacing_properties_stale [("p", "color:red")] "p" "padding").
      * repeat (constructor; [split; (constructor; [|constructor]); vm_compute;
                              first [reflexivity | lia | done]|]).
        constructor.
      * reflexivity.
    + vm_compute. reflexivity.
Defined.

(** ** The loops of [transform] as a whole *)

Section Loops.
Context `{DictOrder}.
Variable CSSSelector : string → gmap nat (gmap string string) → list nat.
Import Str StrFacts.


Lemma set_style_other (page : gmap nat (gmap string string)) (item i : nat)
    (new_style : string) :
  i ≠ item → set_style page item new_style !! i = page !! i.
Proof. intros Hne. unfold set_style. by rewrite lookup_insert_ne. Qed.

Lemma set_style_has_style (page : gmap nat (gmap string string)) (item : nat)
    (new_style : string) :
  attrib (set_style page item new_style) item !! "style" = Some new_style.
Proof.
  unfold set_style, attrib. rewrite lookup_insert_eq. cbn.
  by rewrite style_to_basic_html_attributes_style, lookup_insert_eq.
Qed.

Lemma visit_item_recorded (page : gmap nat (gmap string string))
    (style class_ : string) (st st' : state) (item : nat) :
  recorded page st → visit_item style class_ st item = Ok st' → recorded page st'.
Proof.
  intros (Hnd & Hfts & Hframe & Hsty). unfold visit_item.
  destruct (new_style_for style class_ st item) as [new_style|e]; [|done].
  cbn. case_bool_decide as Hin; cbn; intros [= <-]; unfold recorded; cbn.
  - split; [|split; [|split]].
    + apply NoDup_app. split; [done|]. split; [|apply NoDup_singleton].
      by intros x Hx ->%list_elem_of_singleton.
    + rewrite List.map_app, Hfts. cbn. do 3 f_equal.
      unfold get_style, attrib. by rewrite Hframe.
    + intros i Hi. rewrite elem_of_app, list_elem_of_singleton in Hi.
      rewrite set_style_other by (intros ->; apply Hi; by right).
      apply Hframe. intros Hi'. apply Hi. by left.
    + intros i Hi. destruct (decide (i = item)) as [->|Hne].
      * rewrite set_style_has_style. by eexists.
      * unfold attrib. rewrite set_style_other by done. apply Hsty.
        apply elem_of_app in Hi as [Hi|Hi%list_elem_of_singleton]; done.
  - split; [done|]. split; [done|]. split.
    + intros i Hi. rewrite set_style_other by (by intros ->). by apply Hframe.
    + intros i Hi. destruct (decide (i = item)) as [->|Hne].
      * rewrite set_style_has_style. by eexists.
      * unfold attrib. rewrite set_style_other by done. by apply Hsty.
Qed.

Lemma visit_item_first_time (style class_ : string) (st st' : state) (item i : nat) :
  visit_item style class_ st item = Ok st' →
  i ∈ first_time st' → i ∈ first_time st ∨ i = item.
Proof.
  unfold visit_item.
  destruct (new_style_for style class_ st item) as [new_style|e]; [|done].
  cbn. case_bool_decide as Hin; cbn; intros [= <-]; cbn.
  - rewrite elem_of_app, list_elem_of_singleton. tauto.
  - tauto.
Qed.

Lemma visit_items_recorded (page : gmap nat (gmap string string))
    (style class_ : string) (l : list nat) (st st' : state) :
  recorded page st → visit_items style class_ st l = Ok st' → recorded page st'.
Proof.
  revert st. induction l as [|item l IH]; intros st Hr; cbn.
  - by intros [= <-].
  - destruct (visit_item style class_ st item) as [st1|e] eqn:E; [|done].
    cbn. apply IH. by eapply visit_item_recorded.
Qed.

Lemma visit_items_first_time (style class_ : string) (l : list nat)
    (st st' : state) (i : nat) :
  visit_items style class_ st l = Ok st' →
  i ∈ first_time st' → i ∈ first_time st ∨ i ∈ l.
Proof.
  revert st. induction l as [|item l IH]; intros st; cbn.
  - intros [= <-]. tauto.
  - destruct (visit_item style class_ st item) as [st1|e] eqn:E; [|done].
    cbn. intros Hl Hi. destruct (IH _ Hl Hi) as [Hi1|Hi1].
    + destruct (visit_item_first_time _ _ _ _ _ _ E Hi1) as [?| ->].
      * by left.
      * right. by left.
    + right. by right.
Qed.


Lemma apply_rules_recorded (page : gmap nat (gmap string string))
    (rules : list rule) (st st' : state) (c c' : option string) :
  recorded page st →
  apply_rules CSSSelector st c rules = Ok (st', c') →
  recorded page st' ∧
  ∀ i, i ∈ first_time st' →
       i ∈ first_time st ∨ ∃ selector pg, i ∈ CSSSelector selector pg.
Proof.
  revert st c. induction rules as [|[selector style] rules IH]; intros st c Hr; cbn.
  - intros [= <- _]. split; [done|]. intros i Hi. by left.
  - unfold apply_rule. destruct (split_selector selector) as [sel class_].
    destruct (visit_items style class_ st (CSSSelector sel (page_of st)))
      as [st1|e] eqn:E; [|done].
    cbn. intros Ha. apply IH in Ha as [Hr' Hft].
    + split; [done|]. intros i Hi. destruct (Hft i Hi) as [Hi1|Hi1]; [|by right].
      destruct (visit_items_first_time _ _ _ _ _ _ E Hi1) as [?|?]; [by left|].
      right. by eexists _, _.
    + by eapply visit_items_recorded.
Qed.





(** The last loop changes the elements recorded with an inline style
    only. *)
Lemma restore_items_frame (class_ : option string) (l : list (nat * string))
    (page page' : gmap nat (gmap string string)) (i : nat) :
  restore_items class_ page l = Ok page' →
  (∀ inline_style, (i, inline_style) ∈ l → inline_style = "") →
  page' !! i = page !! i.
Proof.
  revert page. induction l as [|[item inline_style] l IH]; intros page; cbn.
  - by intros [= <-].
  - case_bool_decide as Hi; cbn.
    + intros Hr Hl. apply IH; [done|]. intros s Hs. apply Hl. by right.
    + destruct class_ as [c|]; [|done]. cbn.
      destruct (_merge_styles (get_style page item) inline_style c)
        as [new_style|e1]; [|done].
      cbn. intros Hr Hl. rewrite (IH _ Hr) by (intros s Hs; apply Hl; by right).
      apply set_style_other. intros ->. apply Hi, Hl. by left.
Qed.

Lemma recorded_start (page : gmap nat (gmap string string)) :
  recorded page (State page [] []).
Proof.
  split; [apply NoDup_nil_2|]. split; [done|]. split; [done|].
  by intros item Hi%elem_of_nil.
Qed.

(** X13. The record of the first visits.  When the loop over the rules
    ends, every element of [first_time] was returned by a selector query,
    is there once, and is paired in [first_time_styles], in the same order,
    with the style attribute it has in the document the loop started from
    (the empty text when it has none); the elements that are not in
    [first_time] have the attributes they started with, and those that are
    have a style attribute. *)
Theorem apply_rules_records (page : gmap nat (gmap string string))
    (rules : list rule) (st : state) (class_ : option string) :
  apply_rules CSSSelector (State page [] []) None rules = Ok (st, class_) →
  NoDup (first_time st) ∧
  first_time_styles st = map (λ item, (item, get_style page item)) (first_time st) ∧
  (∀ item, item ∈ first_time st →
     (∃ selector pg, item ∈ CSSSelector selector pg) ∧
     is_Some (attrib (page_of st) item !! "style")) ∧
  (∀ item, item ∉ first_time st → page_of st !! item = page !! item).
Proof.
  intros Ha. apply (apply_rules_recorded page) in Ha as [(Hnd & Hfts & Hframe & Hsty) Hq];
    [|apply recorded_start].
  split; [done|]. split; [done|]. split; [|done].
  intros item Hi. split; [|by apply Hsty].
  destruct (Hq item Hi) as [Hi'|Hi']; [|done]. by apply elem_of_nil in Hi'.
Qed.


(** X15. An element without inline style, or with an empty style attribute,
    comes out of [transform] as the loop over the rules leaves it: the loop
    that re-applies the inline styles does not touch it. *)
Theorem transform_no_inline (self : Premailer) (stylesheets : list string)
    (page page' : gmap nat (gmap string string)) (item : nat) :
  get_style page item = "" →
  transform CSSSelector self stylesheets page = Ok page' →
  ∃ rules st class_,
    _split_spacing_properties
      (flat_map (λ css_body, (_parse_style_rules self css_body).1) stylesheets)
    = Ok rules ∧
    apply_rules CSSSelector (State page [] []) None rules = Ok (st, class_) ∧
    page' !! item = page_of st !! item.
Proof.
  intros Hs. unfold transform.
  destruct (_split_spacing_properties _) as [rules|e]; [|done]. cbn.
  destruct (apply_rules CSSSelector (State page [] []) None rules)
    as [[st class_]|e] eqn:Ha; [|done].
  cbn. intros Hr. exists rules, st, class_. split; [done|]. split; [done|].
  apply (apply_rules_recorded page) in Ha as [(Hnd & Hfts & Hframe & Hsty) Hft];
    [|apply recorded_start].
  apply (restore_items_frame _ _ _ _ item Hr).
  intros inline_style Hin. rewrite Hfts in Hin.
  apply list_elem_of_fmap in Hin as (i & [= <- ->] & Hi). done.
Qed.



End Loops.

Lemma apply_rules_records_witness :
  ∃ st class_,
    @apply_rules key_order example_query (State (example_page "color:red") [] []) None
      [("p", "color:blue"); ("a", "color:green"); ("p", "width:1px")]
    = Ok (st, class_) ∧
    first_time_styles st = [(0, "color:red"); (1, "")].
Proof.
  destruct (@apply_rules key_order example_query
              (State (example_page "color:red") [] []) None
              [("p", "color:blue"); ("a", "color:green"); ("p", "width:1px")])
    as [[st class_]|e] eqn:E; [|by vm_compute in E].
  exists st, class_. split; [done|].
  destruct (@apply_rules_records key_order example_query _ _ _ _ E) as (_ & -> & _).
  pose proof E as E'. vm_compute in E'. injection E' as <- _.
  vm_compute. reflexivity.
Defined.


Lemma transform_no_inline_witness :
  ∃ page',
    @transform key_order example_query default_premailer
      ["p { color:blue } a { color:green }"] (example_page "color:red")
    = Ok page' ∧
    ∃ rules st class_,
      _split_spacing_properties
        (flat_map (λ css_body, (_parse_style_rules default_premailer css_body).1)
           ["p { color:blue } a { color:green }"])
      = Ok rules ∧
      @apply_rules key_order example_query (State (example_page "color:red") [] [])
        None rules = Ok (st, class_) ∧
      page' !! 1 = page_of st !! 1.
Proof.
  destruct (@transform key_order example_query default_premailer
              ["p { color:blue } a { color:green }"] (example_page "color:red"))
    as [page'|e] eqn:E; [|by vm_compute in E].
  exists page'. split; [done|].
  apply (@transform_no_inline key_order example_query default_premailer
           ["p { color:blue } a { color:green }"] (example_page "color:red")
           page' 1); [|exact E].
  vm_compute. reflexivity.
Defined.


(** ** The expansion of expanded rules *)

Section ExpanderFixedPoint.
Import Str StrFacts.

#[local] Arguments expand_property : simpl never.
#[local] Arguments expand_rule : simpl never.

Lemma words_cons (a : ascii) (s : string) :
  words (String a s)
  = if is_space a then words s
    else match s with
         | EmptyString => [String a EmptyString]
         | String b _ =>
             if is_space b then String a EmptyString :: words s
             else match words s with
                  | w :: ws => String a w :: ws
                  | [] => [String a EmptyString]
                  end
         end.
Proof. by destruct s. Qed.

Lemma words_mem (c : ascii) (s : string) :
  mem c s = false → Forall (λ x, mem c x = false) (words s).
Proof.
  induction s as [|a s IH]; [constructor|].
  cbn [mem]. intros [Ha Hs]%orb_false_iff. specialize (IH Hs).
  rewrite words_cons. destruct (is_space a); [done|].
  destruct s as [|b s'].
  - constructor; [|constructor]. cbn. by rewrite Ha.
  - destruct (is_space b).
    + constructor; [|done]. cbn. by rewrite Ha.
    + destruct (words (String b s')) as [|w ws].
      * constructor; [|constructor]. cbn. by rewrite Ha.
      * inversion_clear IH as [|?? Hw Hws]. constructor; [|done].
        cbn. by rewrite Ha.
Qed.

Lemma split_join (c : ascii) (x : string) (l : list string) :
  Forall (λ y, mem c y = false) (x :: l) →
  split c (join (String c "") (x :: l)) = x :: l.
Proof.
  revert x. induction l as [|y l IH]; intros x Hall.
  - inversion_clear Hall. by apply split_no_sep.
  - inversion_clear Hall as [|?? Hx Hl]. rewrite join_cons.
    change (x +:+ String c "" +:+ ?t) with (x +:+ String c t).
    rewrite split_app_sep by done. by rewrite IH.
Qed.

(** A declaration that the expansion leaves alone when it meets it again:
    without [';'], with one colon and a name other than [margin] and
    [padding]. *)
Lemma plain_piece (name value : string) :
  mem ":" name = false → mem ";" name = false → is_spacing name = false →
  mem ":" value = false → mem ";" value = false →
  mem ";" (name +:+ String ":" value) = false ∧
  one_colon (name +:+ String ":" value) ∧
  is_spacing (hd "" (split ":" (name +:+ String ":" value))) = false.
Proof.
  intros Hn1 Hn2 Hn3 Hv1 Hv2. split; [|split].
  - rewrite mem_app. cbn. by rewrite Hn2, Hv2.
  - unfold one_colon. rewrite count_app. cbn.
    by rewrite !count_no_mem by done.
  - by rewrite split_app_sep by done.
Qed.

Lemma longhands_plain (p : string) (s : sides) :
  is_spacing p = true →
  Forall (λ a, mem ":" a = false ∧ mem ";" a = false)
    [top s; right s; bottom s; left s] →
  Forall (λ y, mem ";" y = false ∧ one_colon y ∧
               is_spacing (hd "" (split ":" y)) = false)
    (longhands p s).
Proof.
  intros Hp Hs.
  assert (p = "margin" ∨ p = "padding") as Hcases.
  { unfold is_spacing in Hp. apply orb_true_iff in Hp as [Hp|Hp];
      apply bool_decide_eq_true in Hp; auto. }
  inversion_clear Hs as [|?? [Ht1 Ht2] Hs1].
  inversion_clear Hs1 as [|?? [Hr1 Hr2] Hs2].
  inversion_clear Hs2 as [|?? [Hb1 Hb2] Hs3].
  inversion_clear Hs3 as [|?? [Hl1 Hl2] _].
  unfold longhands.
  destruct Hcases as [-> | ->].
  - repeat constructor.
    all: first [ by apply (plain_piece "margin-top")
               | by apply (plain_piece "margin-right")
               | by apply (plain_piece "margin-bottom")
               | by apply (plain_piece "margin-left") ].
  - repeat constructor.
    all: first [ by apply (plain_piece "padding-top")
               | by apply (plain_piece "padding-right")
               | by apply (plain_piece "padding-bottom")
               | by apply (plain_piece "padding-left") ].
Qed.

Lemma expand_declaration_plain (d : string) :
  mem ";" d = false → one_colon d → spacing_arity_ok d →
  Forall (λ y, mem ";" y = false ∧ one_colon y ∧
               is_spacing (hd "" (split ":" y)) = false)
    (expand_declaration d).
Proof.
  intros Hd Hc Ha. unfold expand_declaration, spacing_arity_ok in *.
  pose proof Hc as (p & v & Hs)%split_two_iff. rewrite Hs in *.
  destruct (is_spacing p) eqn:Hp.
  - specialize (Ha eq_refl).
    assert (Forall (λ a, mem ":" a = false ∧ mem ";" a = false) (words v)) as Hw.
    { apply Forall_and. split; apply words_mem.
      - apply (split_mem ":" d). rewrite Hs. right. left.
      - apply (split_mem_other ";" ":" d); [done|]. rewrite Hs. right. left. }
    rewrite Forall_forall in Hw.
    destruct (words v) as [|a [|b [|c [|e [|]]]]]; cbn in Ha; try lia; cbn.
    all: apply longhands_plain; [done|]; cbn.
    all: repeat (constructor; [apply Hw; by repeat first [left | right]|]).
    all: constructor.
  - constructor; [|constructor]. split; [done|]. split; [done|].
    by rewrite Hs.
Qed.

Lemma expand_declarations_plain (ds : list string) :
  Forall (λ d, mem ";" d = false) ds →
  Forall one_colon ds → Forall spacing_arity_ok ds →
  Forall (λ y, mem ";" y = false ∧ one_colon y ∧
               is_spacing (hd "" (split ":" y)) = false)
    (flat_map expand_declaration ds).
Proof.
  intros H1 H2 H3. induction ds as [|d ds IH]; [constructor|].
  inversion_clear H1. inversion_clear H2. inversion_clear H3.
  cbn [flat_map]. apply Forall_app. split; [|by apply IH].
  by apply expand_declaration_plain.
Qed.

(** The block of an expanded well-formed rule has one colon in every
    declaration and no shorthand. *)
Lemma expand_block_plain (r : rule) :
  well_formed r →
  Forall one_colon (declarations (r.1, expand_block r.2)) ∧
  no_shorthand (r.1, expand_block r.2).
Proof.
  destruct r as [selector style]. intros [H1 H2].
  unfold no_shorthand, declarations, expand_block in *. cbn [snd] in *.
  assert (Forall (λ d, mem ";" d = false) (split ";" style)) as H0.
  { apply Forall_forall. intros d Hd. by apply (split_mem ";" style). }
  pose proof (expand_declarations_plain _ H0 H1 H2) as Hall.
  assert (flat_map expand_declaration (split ";" style) ≠ []) as Hne.
  { pose proof (split_not_nil ";" style) as Hn.
    destruct (split ";" style) as [|d ds]; [done|]. cbn [flat_map].
    pose proof (expand_declaration_not_nil d) as Hd.
    by destruct (expand_declaration d). }
  destruct (flat_map expand_declaration (split ";" style)) as [|x l]; [done|].
  rewrite split_join by (eapply Forall_impl; [exact Hall|]; by intros y [? _]).
  split; (eapply Forall_impl; [exact Hall|]); by intros y (? & ? & ?).
Qed.

(** X17. On rules whose declarations have one colon and, for [margin] and
    [padding], one to four values, the expansion is idempotent: the rules
    that [_split_spacing_properties] returns are returned as they are by a
    second call. *)
Theorem split_spacing_properties_twice (rules : list rule) :
  Forall well_formed rules →
  ∃ orules, _split_spacing_properties rules = Ok orules ∧
            _split_spacing_properties orules = Ok orules.
Proof.
  intros Hwf. exists (map (λ r, (r.1, expand_block r.2)) rules).
  split; [by apply split_spacing_properties_expands_aux|].
  rewrite split_spacing_properties_expands_aux.
  - f_equal. rewrite List.map_map. apply map_ext_in. intros r Hr%list_elem_of_In.
    rewrite Forall_forall in Hwf.
    destruct (expand_block_plain r (Hwf r Hr)) as [_ Hno].
    f_equal. by apply (expand_block_no_shorthand (r.1, expand_block r.2)).
  - apply Forall_forall. intros o (r & -> & Hr)%list_elem_of_fmap.
    rewrite Forall_forall in Hwf.
    destruct (expand_block_plain r (Hwf r Hr)) as [H1 Hno].
    by apply no_shorthand_well_formed.
Qed.

End ExpanderFixedPoint.

Lemma split_spacing_properties_twice_witness :
  ∃ orules,
    _split_spacing_properties [("h1", "margin:0 auto;color:red"); ("p", "padding:1px")]
    = Ok orules ∧
    _split_spacing_properties orules = Ok orules.
Proof.
  apply (split_spacing_properties_twice
           [("h1", "margin:0 auto;color:red"); ("p", "padding:1px")]).
  repeat (constructor; [split; repeat (constructor; [vm_compute;
            first [reflexivity | lia | done]|]); constructor|]).
  constructor.
Defined.

(** ** The selector that is queried and the removal of [!important] *)

Section Selector.
Import Str StrFacts.

Lemma prefix_nil (t : string) : String.prefix "" t = true.
Proof. by destruct t. Qed.

Lemma prefix_cons (a b : ascii) (s t : string) :
  String.prefix (String a s) (String b t) = Ascii.eqb a b && String.prefix s t.
Proof.
  cbn. destruct (ascii_dec a b) as [->|Hne].
  - by rewrite Ascii.eqb_refl.
  - by destruct (Ascii.eqb_spec a b).
Qed.

(** X18. The rule loop loses nothing of a selector: the selector that it
    queries followed by [class_] is the selector of the rule, and [class_]
    is either empty or what follows the first colon, with that colon, the
    selector queried having no colon then and [class_] not being in
    [FILTER_PSEUDOSELECTORS]. *)
Theorem split_selector_recomposes (selector : string) :
  (split_selector selector).1 +:+ (split_selector selector).2 = selector ∧
  ((split_selector selector).2 = "" ∨
   (mem ":" (split_selector selector).1 = false ∧
    startswith ":" (split_selector selector).2 = true ∧
    (split_selector selector).2 ∉ FILTER_PSEUDOSELECTORS)).
Proof.
  unfold split_selector. destruct (mem ":" selector) eqn:Hm.
  - destruct (split1_mem ":" selector Hm) as (a & b & E). rewrite E.
    apply split1_inv in E as [-> Ha].
    case_bool_decide as Hf; cbn [fst snd].
    + split; [apply app_nil_r|by left].
    + split; [reflexivity|]. right. split; [done|]. split; [|done].
      unfold startswith. change (":" +:+ b) with (String ":" b).
      by rewrite prefix_cons, prefix_nil.
  - case_bool_decide; cbn [fst snd]; (split; [apply app_nil_r|by left]).
Qed.

Lemma sub_from_skip (m : string → option nat) (repl t u : string) :
  Regex.sub_from m repl (String.length t) (t +:+ u) = Regex.sub_from m repl 0 u.
Proof. induction t as [|a t IH]; [by destruct u|]. by rewrite app_cons. Qed.

Lemma span_rest_mem (c : ascii) (p : ascii → bool) (s : string) :
  mem c s = false → mem c (span p s).2 = false.
Proof.
  induction s as [|a s IH]; [done|]. cbn.
  intros [Ha Hs]%orb_false_iff. destruct (p a).
  - specialize (IH Hs). by destruct (span p s).
  - cbn. by rewrite Ha, Hs.
Qed.

Lemma importants_none (s : string) : mem "!" s = false → _importants s = None.
Proof.
  intros Hs. unfold _importants.
  pose proof (span_rest_mem "!" is_space s Hs) as Hr.
  destruct (span is_space s) as [run rest]. cbn in Hr.
  destruct rest as [|a rest]; [done|]. cbn in Hr.
  apply orb_false_iff in Hr as [Ha _]. unfold startswith.
  rewrite prefix_cons, Ascii.eqb_sym. by rewrite Ha.
Qed.

Lemma rstrip_spaces (s : string) : rstrip s = "" ↔ all_chars is_space s = true.
Proof.
  induction s as [|a s IH]; [done|]. cbn.
  destruct (rstrip s) as [|b r].
  - destruct (is_space a); [|done]. cbn. by rewrite <- IH.
  - split; [done|]. intros [_ Hs%IH]%andb_true_iff. done.
Qed.

Lemma rstrip_cons (a : ascii) (s : string) :
  all_chars is_space (String a s) = false →
  rstrip (String a s) = String a (rstrip s).
Proof.
  cbn. intros Hn. destruct (rstrip s) as [|b r] eqn:E; [|done].
  apply rstrip_spaces in E. rewrite E, andb_true_r in Hn. by rewrite Hn.
Qed.

(** No match at a position from which something else than white space
    comes before the ['!']. *)
Lemma importants_later (s t : string) :
  mem "!" s = false → all_chars is_space s = false → _importants (s +:+ t) = None.
Proof.
  intros Hs Hn. unfold _importants.
  induction s as [|a s IH]; [done|].
  rewrite app_cons. cbn in *. apply orb_false_iff in Hs as [Ha Hs].
  destruct (is_space a) eqn:Hsp.
  - cbn in Hn. specialize (IH Hs Hn).
    destruct (span is_space (s +:+ t)) as [run rest]. cbn.
    destruct (startswith "!important" rest); [done|done].
  - unfold startswith. rewrite prefix_cons, Ascii.eqb_sym. by rewrite Ha.
Qed.

Lemma importants_hit (s t : string) :
  all_chars is_space s = true →
  _importants (s +:+ "!important" +:+ t) = Some (String.length s + 10).
Proof.
  intros Hs. unfold _importants.
  rewrite !app_cons. change ("" +:+ t) with t.
  rewrite span_app_stop by done. unfold startswith.
  by rewrite !prefix_cons, prefix_nil.
Qed.

(** X19. The removal of [!important] leaves a text without ['!'] as it
    is, and in a text takes out the first [!important] together with the
    white space before it: what precedes, when it has no ['!'], is kept
    less its trailing white space, and the removal goes on after the
    match. *)
Theorem importants_sub (s : string) :
  mem "!" s = false →
  Regex.sub _importants "" s = s ∧
  ∀ t, Regex.sub _importants "" (s +:+ "!important" +:+ t)
       = rstrip s +:+ Regex.sub _importants "" t.
Proof.
  intros Hs. split.
  - unfold Regex.sub. induction s as [|a s IH]; [done|].
    cbn [Regex.sub_from]. rewrite importants_none by done.
    cbn in Hs. apply orb_false_iff in Hs as [_ Hs]. by rewrite IH.
  - intros t. unfold Regex.sub. induction s as [|a s IH].
    + pose proof (importants_hit "" t eq_refl) as Hh.
      change ("" +:+ ?x) with x in Hh |- *. rewrite !app_cons in Hh |- *.
      cbn [Regex.sub_from]. rewrite Hh. change ("" +:+ ?x) with x.
      apply (sub_from_skip _importants "" "important" t).
    + destruct (all_chars is_space (String a s)) eqn:Hsp.
      * assert (rstrip (String a s) = "") as -> by (by apply rstrip_spaces).
        rewrite app_cons. cbn [Regex.sub_from]. rewrite <- app_cons.
        rewrite importants_hit by done.
        change ("" +:+ ?x) with x.
        replace (String.length (String a s) + 10 - 1)
          with (String.length (s +:+ "!important")).
        -- rewrite <- app_assoc. apply sub_from_skip.
        -- rewrite length_app. cbn. lia.
      * rewrite rstrip_cons by done.
        rewrite app_cons. cbn [Regex.sub_from]. rewrite <- app_cons.
        rewrite importants_later by done.
        cbn in Hs. apply orb_false_iff in Hs as [_ Hs].
        rewrite (app_cons a (rstrip s)). f_equal. by apply IH.
Qed.

End Selector.

Lemma importants_sub_witness :
  Regex.sub _importants "" "color:red" = "color:red" ∧
  ∀ t, Regex.sub _importants "" ("color:red" +:+ "!important" +:+ t)
       = Str.rstrip "color:red" +:+ Regex.sub _importants "" t.
Proof. apply (importants_sub "color:red"). reflexivity. Defined.
